(** * Console redirection of ballistica's bootstrap: a shallow embedding

    The class [_BAConsoleRedirect] of
    [src/generated_src/ballistica/bootstrap.py] replaces [sys.stdout] and
    [sys.stderr].  Every [write] is echoed to the real console through a
    callback, accumulated in [_linebits], and shipped to [_ba.log] either at
    once (text ending in a newline) or through [_ba.pushcall].

    Methods are written as programs over atomic actions (lock operations,
    field accesses, calls into [_ba] and into the wrapped stream); [exec]
    runs a program on the calling thread and returns the final world, the
    trace of actions performed and the outcome; [run_schedule] runs
    several threads, one action at a time.  Strings are [string]s; the
    methods only join them, test whether the last character is a newline
    and drop the last character. *)

From Stdlib Require Import String Ascii List ZArith Bool Arith Lia.
Import ListNotations.

(** ** Python strings *)

Module PyStr.

(** ['\n'] *)
Definition LF : ascii := "010"%char.
Definition newline : string := String LF EmptyString.

(** [s.endswith(suffix)] *)
Definition endswith (s suffix : string) : bool :=
  let n := String.length s in
  let m := String.length suffix in
  (m <=? n)%nat && String.eqb (substring (n - m) m s) suffix.

(** [sep.join(bits)] *)
Definition join (sep : string) (bits : list string) : string :=
  String.concat sep bits.

(** [s[:stop]], with Python's treatment of a negative or too large stop. *)
Definition slice_to (s : string) (stop : Z) : string :=
  let n := Z.of_nat (String.length s) in
  let e := if (stop <? 0)%Z then Z.max 0 (stop + n) else Z.min stop n in
  substring 0 (Z.to_nat e) s.

(** Truth value of a string: [not s] holds exactly for the empty string. *)
Definition truthy (s : string) : bool :=
  match s with
  | EmptyString => false
  | String _ _ => true
  end.

End PyStr.
Import PyStr.

Arguments endswith : simpl never.
Arguments join : simpl never.
Arguments slice_to : simpl never.

(** ** Data model *)

(** The two echo callbacks handed to the redirects, [_ba.print_stdout] and
    [_ba.print_stderr]. *)
Inductive PrintFn : Type := print_stdout | print_stderr.

(** A wrapped stream (the [TextIO] that was [sys.stdout] or [sys.stderr]
    before the redirect); [io_isatty] is what its [isatty()] answers. *)
Record TextIO : Type := mkTextIO { io_fileno : Z; io_isatty : bool }.

(** Instance state of [_BAConsoleRedirect].  [_lock] is [true] while the
    [threading.Lock] is held. *)
Record _BAConsoleRedirect : Type := mkRedirect {
  _lock : bool;
  _linebits : list string;
  _original : TextIO;
  _call : PrintFn;
  _pending_ship : bool
}.

(** [_BAConsoleRedirect.__init__] *)
Definition __init__ (original : TextIO) (call : PrintFn) : _BAConsoleRedirect :=
  {| _lock := false;
     _linebits := [];
     _original := original;
     _call := call;
     _pending_ship := false |}.

(** References to the two instances the bootstrap creates: the objects
    installed as [sys.stdout] and [sys.stderr]. *)
Inductive Ref : Type := sys_stdout | sys_stderr.

(** One request handed to [_ba.pushcall]: the instance whose bound
    [_shiplog] is to be called, and the two keyword arguments. *)
Record PushedCall : Type := mkPushed {
  pc_self : Ref;
  from_other_thread : bool;
  suppress_other_thread_warning : bool
}.

(** Modelled from the spec: the Scheduler behind [_ba.pushcall] (native
    code, not part of the sources) keeps the requests in arrival order and
    later runs each one once. *)
Definition SchedulerQueue : Type := list PushedCall.

(** The two redirect objects and the requests the Scheduler has not run
    yet. *)
Record World : Type := mkWorld {
  stdout_obj : _BAConsoleRedirect;
  stderr_obj : _BAConsoleRedirect;
  pending : SchedulerQueue
}.

Definition Ref_eqb (a b : Ref) : bool :=
  match a, b with
  | sys_stdout, sys_stdout | sys_stderr, sys_stderr => true
  | _, _ => false
  end.

Definition obj (w : World) (r : Ref) : _BAConsoleRedirect :=
  match r with
  | sys_stdout => stdout_obj w
  | sys_stderr => stderr_obj w
  end.

Definition set_obj (w : World) (r : Ref) (o : _BAConsoleRedirect) : World :=
  match r with
  | sys_stdout => {| stdout_obj := o; stderr_obj := stderr_obj w; pending := pending w |}
  | sys_stderr => {| stdout_obj := stdout_obj w; stderr_obj := o; pending := pending w |}
  end.

Definition set_lock (o : _BAConsoleRedirect) (b : bool) : _BAConsoleRedirect :=
  {| _lock := b; _linebits := _linebits o; _original := _original o;
     _call := _call o; _pending_ship := _pending_ship o |}.

Definition set_linebits (o : _BAConsoleRedirect) (l : list string) : _BAConsoleRedirect :=
  {| _lock := _lock o; _linebits := l; _original := _original o;
     _call := _call o; _pending_ship := _pending_ship o |}.

Definition set_pending_ship (o : _BAConsoleRedirect) (b : bool) : _BAConsoleRedirect :=
  {| _lock := _lock o; _linebits := _linebits o; _original := _original o;
     _call := _call o; _pending_ship := b |}.

Definition set_pending (w : World) (q : SchedulerQueue) : World :=
  {| stdout_obj := stdout_obj w; stderr_obj := stderr_obj w; pending := q |}.

(** Modelled from the spec: [_ba.pushcall] puts the request at the end of
    the Scheduler's queue. *)
Definition push (w : World) (c : PushedCall) : World :=
  set_pending w (pending w ++ [c]).

(** Lines 69-72 of [_ballistica_bootstrap]: both standard streams are
    replaced by redirects wrapping the previous streams. *)
Definition _ballistica_bootstrap (old_stdout old_stderr : TextIO) : World :=
  {| stdout_obj := __init__ old_stdout print_stdout;
     stderr_obj := __init__ old_stderr print_stderr;
     pending := [] |}.

(** ** Atomic actions and programs *)

(** What one statement of a method does; the index is the type of the value
    the action yields. *)
Inductive Act : Type -> Type :=
| AEcho (self : Ref) (sval : string) : Act unit       (* self._call(sval) *)
| AAcquire (self : Ref) : Act unit                    (* self._lock.__enter__() *)
| ARelease (self : Ref) : Act unit                    (* self._lock.__exit__() *)
| AAppend (self : Ref) (sval : string) : Act unit     (* self._linebits.append(sval) *)
| AGetBits (self : Ref) : Act (list string)           (* read self._linebits *)
| ASetBits (self : Ref) (l : list string) : Act unit  (* self._linebits = l *)
| APushcall (c : PushedCall) : Act unit               (* _ba.pushcall(...) *)
| ALog (line : string) (to_stdout : bool) : Act unit  (* _ba.log(line, to_stdout=...) *)
| AFlush (self : Ref) : Act unit                      (* self._original.flush() *)
| AIsatty (self : Ref) : Act bool                     (* self._original.isatty() *)
| APopPending : Act (option PushedCall).              (* the Scheduler takes its oldest request *)

(** The same actions as they show up in a trace, with the callee resolved
    and the value yielded. *)
Inductive Event : Type :=
| EEcho (f : PrintFn) (sval : string)
| EAcquire (self : Ref)
| ERelease (self : Ref)
| EAppend (self : Ref) (sval : string)
| EGetBits (self : Ref) (l : list string)
| ESetBits (self : Ref) (l : list string)
| EPushcall (c : PushedCall)
| ELog (line : string) (to_stdout : bool)
| EFlush (original : TextIO)
| EIsatty (original : TextIO) (answer : bool)
| EPopPending (c : option PushedCall).

Inductive Prog (A : Type) : Type :=
| Ret (a : A)
| Vis (X : Type) (e : Act X) (k : X -> Prog A).

Arguments Ret {A} a.
Arguments Vis {A X} e k.

Fixpoint bind {A B : Type} (p : Prog A) (f : A -> Prog B) : Prog B :=
  match p with
  | Ret a => f a
  | Vis e k => Vis e (fun x => bind (k x) f)
  end.

Definition act {X : Type} (e : Act X) : Prog X := Vis e (fun x => Ret x).

Declare Scope prog_scope.
Delimit Scope prog_scope with prog.
Notation "x <- p ;; q" := (bind p (fun x => q))
  (at level 61, p at next level, right associativity) : prog_scope.
Notation "p ;; q" := (bind p (fun _ => q))
  (at level 61, right associativity) : prog_scope.
Open Scope prog_scope.

(** ** The methods of [_BAConsoleRedirect] *)

(** [_BAConsoleRedirect._shiplog].  The [return] inside the [with] block
    leaves the block, so the lock is released on that path too. *)
Definition _shiplog (self : Ref) : Prog unit :=
  act (AAcquire self) ;;
  bits <- act (AGetBits self) ;;
  let line := join "" bits in
  if negb (truthy line) then
    act (ARelease self) ;;
    Ret tt
  else
    act (ASetBits self []) ;;
    act (ARelease self) ;;
    let line := if endswith line newline then slice_to line (-1) else line in
    act (ALog line false).

(** [_BAConsoleRedirect.write] *)
Definition write (self : Ref) (sval : string) : Prog unit :=
  act (AEcho self sval) ;;
  act (AAcquire self) ;;
  act (AAppend self sval) ;;
  act (ARelease self) ;;
  if endswith sval newline then
    _shiplog self
  else
    act (APushcall {| pc_self := self;
                      from_other_thread := true;
                      suppress_other_thread_warning := true |}).

(** [_BAConsoleRedirect.flush] *)
Definition flush (self : Ref) : Prog unit :=
  act (AFlush self).

(** [_BAConsoleRedirect.isatty] *)
Definition isatty (self : Ref) : Prog bool :=
  act (AIsatty self).

(** Modelled from the spec: one turn of the Scheduler on its consumer
    context.  It takes the oldest pending request, if any, and calls the
    bound [_shiplog] it holds, once. *)
Definition fire : Prog unit :=
  c <- act APopPending ;;
  match c with
  | None => Ret tt
  | Some c => _shiplog (pc_self c)
  end.

(** What can happen to the redirects from outside: a method call on one of
    them, or a turn of the Scheduler. *)
Inductive Op : Type :=
| OWrite (self : Ref) (sval : string)
| OFlush (self : Ref)
| OIsatty (self : Ref)
| OFire.

Definition op_prog (o : Op) : Prog unit :=
  match o with
  | OWrite self sval => write self sval
  | OFlush self => flush self
  | OIsatty self => _ <- isatty self ;; Ret tt
  | OFire => fire
  end.

Fixpoint ops_prog (l : list Op) : Prog unit :=
  match l with
  | [] => Ret tt
  | o :: l' => op_prog o ;; ops_prog l'
  end.

(** [write(w1); ...; write(wn)] on one instance. *)
Definition writes (self : Ref) (ws : list string) : Prog unit :=
  ops_prog (map (OWrite self) ws).

(** ** Running programs *)

Inductive Exn : Type :=
| RuntimeError.   (* release of an unlocked lock *)

(** How one action fares in a world: it completes, it has to wait for the
    lock, or it raises. *)
Inductive Reply (X : Type) : Type :=
| Ok (x : X) (w : World) (ev : Event)
| Wait
| Raise (e : Exn).

Arguments Ok {X} x w ev.
Arguments Wait {X}.
Arguments Raise {X} e.

Definition perform {X : Type} (a : Act X) (w : World) : Reply X :=
  match a in Act X return Reply X with
  | AEcho self sval => Ok tt w (EEcho (_call (obj w self)) sval)
  | AAcquire self =>
      if _lock (obj w self) then Wait
      else Ok tt (set_obj w self (set_lock (obj w self) true)) (EAcquire self)
  | ARelease self =>
      if _lock (obj w self)
      then Ok tt (set_obj w self (set_lock (obj w self) false)) (ERelease self)
      else Raise RuntimeError
  | AAppend self sval =>
      Ok tt (set_obj w self (set_linebits (obj w self) (_linebits (obj w self) ++ [sval])))
         (EAppend self sval)
  | AGetBits self => Ok (_linebits (obj w self)) w (EGetBits self (_linebits (obj w self)))
  | ASetBits self l => Ok tt (set_obj w self (set_linebits (obj w self) l)) (ESetBits self l)
  | APushcall c => Ok tt (push w c) (EPushcall c)
  | ALog line to_stdout => Ok tt w (ELog line to_stdout)
  | AFlush self => Ok tt w (EFlush (_original (obj w self)))
  | AIsatty self =>
      Ok (io_isatty (_original (obj w self))) w
         (EIsatty (_original (obj w self)) (io_isatty (_original (obj w self))))
  | APopPending =>
      match pending w with
      | [] => Ok None w (EPopPending None)
      | c :: rest => Ok (Some c) (set_pending w rest) (EPopPending (Some c))
      end
  end.

Inductive Outcome (A : Type) : Type :=
| Done (a : A)
| Blocked
| Raised (e : Exn).

Arguments Done {A} a.
Arguments Blocked {A}.
Arguments Raised {A} e.

(** The result of a run: final world, actions performed, outcome. *)
Record Run (A : Type) : Type := mkRun {
  world : World;
  trace : list Event;
  outcome : Outcome A
}.

Arguments mkRun {A} world trace outcome.
Arguments world {A} r.
Arguments trace {A} r.
Arguments outcome {A} r.

(** Run a program on the calling thread until it returns, has to wait for
    a lock some other thread holds, or raises. *)
Fixpoint exec {A : Type} (p : Prog A) (w : World) : Run A :=
  match p with
  | Ret a => mkRun w [] (Done a)
  | Vis e k =>
      match perform e w with
      | Ok x w' ev =>
          let r := exec (k x) w' in
          mkRun (world r) (ev :: trace r) (outcome r)
      | Wait => mkRun w [] Blocked
      | Raise e => mkRun w [] (Raised e)
      end
  end.

(** ** Reading traces *)

(** The records handed to [_ba.log], in order: the line and [to_stdout]. *)
Definition records (tr : list Event) : list (string * bool) :=
  flat_map (fun e => match e with ELog line b => [(line, b)] | _ => [] end) tr.

(** The calls of the echo callbacks, in order. *)
Definition echoes (tr : list Event) : list (PrintFn * string) :=
  flat_map (fun e => match e with EEcho f s => [(f, s)] | _ => [] end) tr.

(** The requests handed to [_ba.pushcall], in order. *)
Definition pushcalls (tr : list Event) : list PushedCall :=
  flat_map (fun e => match e with EPushcall c => [c] | _ => [] end) tr.

(** [_shiplog] is the only method that reads [_linebits], and it does so
    once per execution: the reads count its executions. *)
Definition ships (tr : list Event) : nat :=
  List.length (flat_map (fun e => match e with EGetBits _ _ => [e] | _ => [] end) tr).

(** Events that leave the instance: calls into [_ba] and into the wrapped
    stream.  Lock operations, buffer accesses and the Scheduler's own
    bookkeeping are internal. *)
Definition is_external (e : Event) : bool :=
  match e with
  | EEcho _ _ | EPushcall _ | ELog _ _ | EFlush _ | EIsatty _ _ => true
  | _ => false
  end.

Definition external (tr : list Event) : list Event := filter is_external tr.

(** Events that touch the buffer of an instance. *)
Definition touches_buffer (e : Event) : bool :=
  match e with
  | EAppend _ _ | EGetBits _ _ | ESetBits _ _ => true
  | _ => false
  end.

(** Whether the calling thread holds the lock of [self] after performing
    [tr], having held none before. *)
Fixpoint holds_lock (self : Ref) (tr : list Event) (held : bool) : bool :=
  match tr with
  | [] => held
  | EAcquire r :: tr' => holds_lock self tr' (if Ref_eqb self r then true else held)
  | ERelease r :: tr' => holds_lock self tr' (if Ref_eqb self r then false else held)
  | _ :: tr' => holds_lock self tr' held
  end.

(** The line [_shiplog] logs for a joined buffer [line]. *)
Definition logged_line (line : string) : string :=
  if endswith line newline then slice_to line (-1) else line.

(** The world once [_shiplog] has emptied the buffer of [self]. *)
Definition drained (w : World) (self : Ref) : World :=
  set_obj w self (set_linebits (obj w self) []).

(** The world once [write] has appended [sval] to the buffer of [self]. *)
Definition appended (w : World) (self : Ref) (sval : string) : World :=
  set_obj w self (set_linebits (obj w self) (_linebits (obj w self) ++ [sval])).

(** The request [write] hands to [_ba.pushcall]. *)
Definition deferred_ship (self : Ref) : PushedCall :=
  {| pc_self := self; from_other_thread := true;
     suppress_other_thread_warning := true |}.

Definition PushedCall_eqb (a b : PushedCall) : bool :=
  Ref_eqb (pc_self a) (pc_self b) &&
  Bool.eqb (from_other_thread a) (from_other_thread b) &&
  Bool.eqb (suppress_other_thread_warning a) (suppress_other_thread_warning b).

(** How many times a request occurs in the Scheduler's queue. *)
Definition count_occ_pushed (c : PushedCall) (q : list PushedCall) : nat :=
  List.length (filter (PushedCall_eqb c) q).

(** No thread holds a lock: the state between method calls of a single
    thread. *)
Definition lock_free (w : World) : Prop :=
  forall r, _lock (obj w r) = false.

(** A property of every action a program can perform, whatever the values
    the actions yield. *)
Fixpoint every_act {A : Type} (P : forall X, Act X -> Prop) (p : Prog A) : Prop :=
  match p with
  | Ret _ => True
  | Vis e k => P _ e /\ forall x, every_act P (k x)
  end.

(** The action is not a [_ba.log] call with [to_stdout] other than
    [False]. *)
Definition log_quiet (X : Type) (a : Act X) : Prop :=
  match a with
  | ALog _ to_stdout => to_stdout = false
  | _ => True
  end.

Definition event_quiet (e : Event) : Prop :=
  match e with
  | ELog _ to_stdout => to_stdout = false
  | _ => True
  end.

(** The world with the field [_pending_ship] of one instance overwritten. *)
Definition with_pending_ship (w : World) (r : Ref) (b : bool) : World :=
  set_obj w r (set_pending_ship (obj w r) b).

(** The world after [write(w1); ...; write(wn)] on [self] when no [wi]
    ends with a newline: all fragments buffered, one request pending for
    each. *)
Definition buffered (w : World) (self : Ref) (ws : list string) : World :=
  set_pending
    (set_obj w self (set_linebits (obj w self) (_linebits (obj w self) ++ ws)))
    (pending w ++ map (fun _ => deferred_ship self) ws).

(** The trace of those writes. *)
Definition partial_trace (call : PrintFn) (self : Ref) (ws : list string) : list Event :=
  flat_map (fun s => [EEcho call s; EAcquire self; EAppend self s;
                      ERelease self; EPushcall (deferred_ship self)]) ws.

(** Writes on the two instances in some order. *)
Definition interleaved (l : list (Ref * string)) : Prog unit :=
  ops_prog (map (fun p => OWrite (fst p) (snd p)) l).

(** The texts written to one instance, in order. *)
Definition texts_of (self : Ref) (l : list (Ref * string)) : list string :=
  map snd (filter (fun p => Ref_eqb self (fst p)) l).

(** [Merge l1 l2 l]: [l] interleaves [l1] and [l2], keeping the order of
    each. *)
Inductive Merge {A : Type} : list A -> list A -> list A -> Prop :=
| Merge_nil : Merge [] [] []
| Merge_left (x : A) (l1 l2 l : list A) :
    Merge l1 l2 l -> Merge (x :: l1) l2 (x :: l)
| Merge_right (x : A) (l1 l2 l : list A) :
    Merge l1 l2 l -> Merge l1 (x :: l2) (x :: l).

(** The echo callback the bootstrap gives to each instance. *)
Definition callback_of (r : Ref) : PrintFn :=
  match r with
  | sys_stdout => print_stdout
  | sys_stderr => print_stderr
  end.

(** The echo calls a list of operations makes when each runs to its end. *)
Definition echoes_of (w : World) (l : list Op) : list (PrintFn * string) :=
  flat_map (fun o => match o with
                     | OWrite self sval => [(_call (obj w self), sval)]
                     | _ => []
                     end) l.

(** ** Several threads *)

(** What is left to run of each thread. *)
Definition Pool : Type := list (Prog unit).

Fixpoint set_nth {A : Type} (i : nat) (x : A) (l : list A) : list A :=
  match l, i with
  | [], _ => []
  | _ :: l', O => x :: l'
  | y :: l', S i' => y :: set_nth i' x l'
  end.

(** Thread [i] performs its next action, if it has one and the action can
    be performed now.  A thread waiting for a lock makes no step; nor does
    one that raised. *)
Definition thread_step (i : nat) (w : World) (pool : Pool) : option (World * Pool * Event) :=
  match nth_error pool i with
  | Some (Vis e k) =>
      match perform e w with
      | Ok x w' ev => Some (w', set_nth i (k x) pool, ev)
      | Wait => None
      | Raise _ => None
      end
  | _ => None
  end.

(** Run the threads as a schedule says: each entry names the thread that
    tries to move next.  The trace records who did what. *)
Fixpoint run_schedule (sch : list nat) (w : World) (pool : Pool)
  : World * Pool * list (nat * Event) :=
  match sch with
  | [] => (w, pool, [])
  | i :: sch' =>
      match thread_step i w pool with
      | Some (w', pool', ev) =>
          let '(w'', pool'', tr) := run_schedule sch' w' pool' in
          (w'', pool'', (i, ev) :: tr)
      | None => run_schedule sch' w pool
      end
  end.

(** Which thread owns the lock of each instance. *)
Definition Owners : Type := Ref -> option nat.

Definition no_owner : Owners := fun _ => None.

Definition set_owner (own : Owners) (r : Ref) (o : option nat) : Owners :=
  fun r' => if Ref_eqb r' r then o else own r'.

Definition owns (own : Owners) (i : nat) (r : Ref) : bool :=
  match own r with
  | Some j => Nat.eqb i j
  | None => false
  end.

(** The lock discipline, read off a trace: a lock is acquired only when
    free and released only by its owner; a buffer is touched only by the
    owner of its lock; a thread calls out of the instance (echo callback,
    [_ba.pushcall], [_ba.log], the wrapped stream) only while it owns no
    lock. *)
Definition allowed (own : Owners) (i : nat) (e : Event) : Prop :=
  match e with
  | EAcquire r => own r = None
  | ERelease r => own r = Some i
  | EAppend r _ | EGetBits r _ | ESetBits r _ => own r = Some i
  | EEcho _ _ | EPushcall _ | ELog _ _ | EFlush _ | EIsatty _ _
  | EPopPending _ => forall r, owns own i r = false
  end.

Definition next_owners (own : Owners) (i : nat) (e : Event) : Owners :=
  match e with
  | EAcquire r => set_owner own r (Some i)
  | ERelease r => set_owner own r None
  | _ => own
  end.

Fixpoint disciplined (own : Owners) (tr : list (nat * Event)) : Prop :=
  match tr with
  | [] => True
  | (i, e) :: tr' => allowed own i e /\ disciplined (next_owners own i e) tr'
  end.

Fixpoint owners_after (own : Owners) (tr : list (nat * Event)) : Owners :=
  match tr with
  | [] => own
  | (i, e) :: tr' => owners_after (next_owners own i e) tr'
  end.

(** The same discipline as a property of a program that starts while
    holding the locks [h], and ends holding none. *)
Definition guard {X : Type} (a : Act X) (h : Ref -> bool) : Prop :=
  match a with
  | AAcquire r => h r = false
  | ARelease r => h r = true
  | AAppend r _ | AGetBits r | ASetBits r _ => h r = true
  | AEcho _ _ | APushcall _ | ALog _ _ | AFlush _ | AIsatty _
  | APopPending => forall r, h r = false
  end.

Definition after_act {X : Type} (a : Act X) (h : Ref -> bool) : Ref -> bool :=
  match a with
  | AAcquire r => fun r' => if Ref_eqb r' r then true else h r'
  | ARelease r => fun r' => if Ref_eqb r' r then false else h r'
  | _ => h
  end.

Fixpoint well_locked {A : Type} (p : Prog A) (h : Ref -> bool) : Prop :=
  match p with
  | Ret _ => forall r, h r = false
  | Vis e k => guard e h /\ forall x, well_locked (k x) (after_act e h)
  end.

(** What ties a pool of threads to the world and the owners of the
    locks: a lock is held exactly when it has an owner, and what is left of
    each thread observes the discipline from the locks the thread owns. *)
Definition pool_inv (own : Owners) (w : World) (pool : Pool) : Prop :=
  (forall r, _lock (obj w r) = match own r with Some _ => true | None => false end) /\
  (forall i p, nth_error pool i = Some p -> well_locked p (owns own i)).

(** The event reads or writes the buffer of [r]. *)
Definition touches_buffer_of (r : Ref) (e : Event) : bool :=
  match e with
  | EAppend r' _ | EGetBits r' _ | ESetBits r' _ => Ref_eqb r r'
  | _ => false
  end.

(** ** Uses of the redirects *)

(** The texts [print(a1, ..., an)] hands to [file.write] before the final
    [end]: the arguments with the default separator [' '] between them. *)
Fixpoint print_pieces (args : list string) : list string :=
  match args with
  | [] => []
  | [a] => [a]
  | a :: rest => a :: " "%string :: print_pieces rest
  end.

(** Python's [print(a1, ..., an)] with the default [sep], [end] and [file]: one
    [sys.stdout.write] per argument and per separator, then one for the
    final newline.  After the bootstrap [sys.stdout] is the redirect. *)
Definition print (args : list string) : Prog unit :=
  writes sys_stdout (print_pieces args ++ [newline]).

(** [_shiplog] called [k] times in a row. *)
Fixpoint ship_times (self : Ref) (k : nat) : Prog unit :=
  match k with
  | O => Ret tt
  | S k' => _shiplog self ;; ship_times self k'
  end.

(** The text one instance's [_shiplog] runs read from its buffer, in
    order. *)
Definition read_text (self : Ref) (tr : list Event) : string :=
  join "" (flat_map (fun e => match e with
                              | EGetBits r l => if Ref_eqb self r then [join "" l] else []
                              | _ => []
                              end) tr).

(** The text written to one instance by a list of operations. *)
Definition written_text (self : Ref) (l : list Op) : string :=
  join "" (flat_map (fun o => match o with
                              | OWrite r s => if Ref_eqb self r then [s] else []
                              | _ => []
                              end) l).

(** The records that the buffer reads of a trace call for: one for each
    read that found text. *)
Definition records_of_reads (tr : list Event) : list (string * bool) :=
  flat_map (fun e => match e with
                     | EGetBits _ l =>
                         if truthy (join "" l)
                         then [(logged_line (join "" l), false)]
                         else []
                     | _ => []
                     end) tr.

(** [flush] and [isatty] calls, and the events they leave in a trace. *)
Definition is_query (o : Op) : bool :=
  match o with
  | OFlush _ | OIsatty _ => true
  | _ => false
  end.

Definition is_query_event (e : Event) : bool :=
  match e with
  | EFlush _ | EIsatty _ _ => true
  | _ => false
  end.

(** A thread's program never asks for a lock while it holds one. *)
Fixpoint no_nested_locks {A : Type} (p : Prog A) (h : Ref -> bool) : Prop :=
  match p with
  | Ret _ => True
  | Vis e k =>
      match e with
      | AAcquire _ => forall r, h r = false
      | _ => True
      end /\ forall x, no_nested_locks (k x) (after_act e h)
  end.

(** [pool_inv], and moreover no thread nests locks and every owner is a
    thread of the pool. *)
Definition pool_inv_strong (own : Owners) (w : World) (pool : Pool) : Prop :=
  pool_inv own w pool /\
  (forall i p, nth_error pool i = Some p -> no_nested_locks p (owns own i)) /\
  (forall r i, own r = Some i -> i < List.length pool).

Definition is_ret {A : Type} (p : Prog A) : bool :=
  match p with
  | Ret _ => true
  | Vis _ _ => false
  end.

(** Every thread has run to its end. *)
Definition finished (pool : Pool) : bool := forallb is_ret pool.

(** ** The rest of the bootstrap *)

(** Values found in the dict [_ba.env()] returns. *)
Inductive PyVal : Type :=
| VStr (s : string)
| VBool (b : bool)
| VInt (z : Z).

(** Truth value of such a value, as [if] takes it. *)
Definition val_truthy (v : PyVal) : bool :=
  match v with
  | VStr s => truthy s
  | VBool b => b
  | VInt z => negb (z =? 0)%Z
  end.

(** The dict of [_ba.env()]; [dict_get d k] is [d[k]], [None] standing for
    the [KeyError]. *)
Definition Env : Type := list (string * PyVal).

Fixpoint dict_get (d : Env) (k : string) : option PyVal :=
  match d with
  | [] => None
  | (k', v) :: d' => if String.eqb k k' then Some v else dict_get d' k
  end.

(** Calls the bootstrap makes besides those of the redirects. *)
Inductive BootCall : Type :=
| BSignalDefault      (* signal.signal(signal.SIGINT, signal.SIG_DFL) *)
| BSetupSigint        (* _ba.setup_sigint() *)
| BImportThread       (* the thread importing json and urllib.request *)
| BNewApp.            (* App(), stored in _ba.app and ba.app *)

(** How the bootstrap can stop early. *)
Inductive BootExn : Type :=
| KeyError (key : string)
| ConsoleStopped (o : Outcome unit).

(** What the bootstrap acts on: the redirects, [sys.path], the console
    actions performed so far and the other calls made so far. *)
Record BootState : Type := mkBoot {
  b_world : World;
  b_path : list PyVal;
  b_console : list Event;
  b_calls : list BootCall
}.

Definition Boot (A : Type) : Type := BootState -> BootState * (A + BootExn).

Definition bret {A : Type} (a : A) : Boot A := fun s => (s, inl a).

Definition bbind {A B : Type} (m : Boot A) (f : A -> Boot B) : Boot B :=
  fun s => match m s with
           | (s', inl a) => f a s'
           | (s', inr e) => (s', inr e)
           end.

Declare Scope boot_scope.
Delimit Scope boot_scope with boot.
Notation "x <- p ;; q" := (bbind p (fun x => q))
  (at level 61, p at next level, right associativity) : boot_scope.
Notation "p ;; q" := (bbind p (fun _ => q))
  (at level 61, right associativity) : boot_scope.

(** [_ba.env()[key]] *)
Definition env_lookup (env : Env) (key : string) : Boot PyVal :=
  fun s => match dict_get env key with
           | Some v => (s, inl v)
           | None => (s, inr (KeyError key))
           end.

(** [sys.path.insert(0, v)] *)
Definition path_insert_front (v : PyVal) : Boot unit :=
  fun s => ({| b_world := b_world s; b_path := v :: b_path s;
               b_console := b_console s; b_calls := b_calls s |}, inl tt).

(** [sys.path.append(v)] *)
Definition path_append (v : PyVal) : Boot unit :=
  fun s => ({| b_world := b_world s; b_path := b_path s ++ [v];
               b_console := b_console s; b_calls := b_calls s |}, inl tt).

Definition boot_call (c : BootCall) : Boot unit :=
  fun s => ({| b_world := b_world s; b_path := b_path s;
               b_console := b_console s; b_calls := b_calls s ++ [c] |}, inl tt).

(** Run a program of the redirects on the bootstrap's thread. *)
Definition on_console (p : Prog unit) : Boot unit :=
  fun s =>
    let r := exec p (b_world s) in
    ({| b_world := world r; b_path := b_path s;
        b_console := b_console s ++ trace r; b_calls := b_calls s |},
     match outcome r with
     | Done _ => inl tt
     | o => inr (ConsoleStopped o)
     end).

(** The message of the UTF-8 sanity check. *)
Definition utf8_error : string :=
  "ERROR: Python's UTF-8 mode is not set. This will likely result in errors.".

(** Lines 74-141 of [_ballistica_bootstrap], after the redirects are in
    place: the three [sys.path] entries, the SIGINT set-up, the UTF-8
    sanity check, the import thread of debug builds, and the App. *)
Definition bootstrap_body (env : Env) (utf8_mode : Z) : Boot unit :=
  (u <- env_lookup env "python_directory_user" ;;
   path_insert_front u ;;
   a <- env_lookup env "python_directory_app" ;;
   path_append a ;;
   t <- env_lookup env "python_directory_app_site" ;;
   path_append t ;;
   boot_call BSignalDefault ;;
   boot_call BSetupSigint ;;
   (if negb (utf8_mode =? 1)%Z then on_console (print [utf8_error]) else bret tt) ;;
   d <- env_lookup env "debug_build" ;;
   (if val_truthy d then boot_call BImportThread else bret tt) ;;
   boot_call BNewApp)%boot.

(** The whole of [_ballistica_bootstrap]: the redirects replace the
    standard streams, then the body runs. *)
Definition bootstrap_run (old_stdout old_stderr : TextIO) (path : list PyVal)
           (env : Env) (utf8_mode : Z) : BootState * (unit + BootExn) :=
  bootstrap_body env utf8_mode
    {| b_world := _ballistica_bootstrap old_stdout old_stderr;
       b_path := path; b_console := []; b_calls := [] |}.

(** The keys the bootstrap reads, in the order it reads them. *)
Definition boot_keys : list string :=
  ["python_directory_user"%string; "python_directory_app"%string;
   "python_directory_app_site"%string; "debug_build"%string].

(** ** Facts about Python strings *)

Section StringFacts.

Local Open Scope string_scope.

Lemma append_nil_r (s : string) : s ++ "" = s.
Proof. induction s as [|c s IH]; simpl; [reflexivity | now rewrite IH]. Qed.

Lemma append_assoc (a b c : string) : (a ++ b) ++ c = a ++ (b ++ c).
Proof. induction a as [|x a IH]; simpl; [reflexivity | now rewrite IH]. Qed.

Lemma length_append (a b : string) :
  String.length (a ++ b) = String.length a + String.length b.
Proof. induction a as [|x a IH]; simpl; [reflexivity | now rewrite IH]. Qed.

Lemma append_eq_nil (a b : string) : a ++ b = "" -> a = "" /\ b = "".
Proof. destruct a; simpl; [auto | discriminate]. Qed.

(** Every string is empty or has a last character. *)
Lemma string_snoc_cases (s : string) :
  s = "" \/ exists t c, s = t ++ String c "".
Proof.
  induction s as [|a s IH]; [now left | right].
  destruct IH as [-> | (t & c & ->)].
  - now exists "", a.
  - now exists (String a t), c.
Qed.

Lemma substring_last (t : string) (c : ascii) :
  substring (String.length t) 1 (t ++ String c "") = String c "".
Proof. induction t as [|a t IH]; simpl; [reflexivity | exact IH]. Qed.

Lemma substring_init (t u : string) :
  substring 0 (String.length t) (t ++ u) = t.
Proof.
  induction t as [|a t IH]; simpl.
  - now destruct u.
  - now rewrite IH.
Qed.

(** [s.endswith('\n')] looks at the last character only. *)
Lemma endswith_snoc (t : string) (c : ascii) :
  endswith (t ++ String c "") newline = Ascii.eqb c LF.
Proof.
  unfold endswith, newline. rewrite length_append. simpl String.length.
  replace (String.length t + 1 - 1) with (String.length t) by lia.
  rewrite substring_last.
  replace (1 <=? String.length t + 1)%nat with true
    by (symmetry; apply Nat.leb_le; lia).
  simpl. now destruct (Ascii.eqb c LF).
Qed.

Lemma endswith_newline_iff (s : string) :
  endswith s newline = true <-> exists t, s = t ++ newline.
Proof.
  split.
  - destruct (string_snoc_cases s) as [-> | (t & c & ->)]; [discriminate |].
    rewrite endswith_snoc. intros H. apply Ascii.eqb_eq in H. subst c.
    now exists t.
  - intros [t ->]. unfold newline. rewrite endswith_snoc. apply Ascii.eqb_refl.
Qed.

(** [s[:-1]] drops the last character. *)
Lemma slice_to_snoc (t : string) (c : ascii) :
  slice_to (t ++ String c "") (-1) = t.
Proof.
  unfold slice_to. rewrite length_append. simpl String.length.
  replace (-1 <? 0)%Z with true by reflexivity.
  replace (Z.to_nat (Z.max 0 (-1 + Z.of_nat (String.length t + 1))))
    with (String.length t) by lia.
  apply substring_init.
Qed.

Lemma truthy_false_iff (s : string) : truthy s = false <-> s = "".
Proof. destruct s; simpl; split; congruence. Qed.

Lemma join_cons (x : string) (l : list string) :
  join "" (x :: l) = x ++ join "" l.
Proof.
  unfold join. destruct l; simpl; [now rewrite append_nil_r | reflexivity].
Qed.

Lemma join_app (l l' : list string) :
  join "" (l ++ l') = join "" l ++ join "" l'.
Proof.
  induction l as [|x l IH]; [reflexivity |].
  rewrite <- app_comm_cons, !join_cons, IH. now rewrite append_assoc.
Qed.

Lemma join_snoc (l : list string) (x : string) :
  join "" (l ++ [x]) = join "" l ++ x.
Proof. rewrite join_app. now rewrite (join_cons x []), append_nil_r. Qed.

(** A buffer joins to the empty string exactly when all its fragments
    are empty. *)
Lemma join_empty_iff (l : list string) :
  join "" l = "" <-> Forall (fun s => s = "") l.
Proof.
  induction l as [|x l IH]; [now split |].
  rewrite join_cons. split.
  - intros H. apply append_eq_nil in H as [-> H]. constructor; tauto.
  - intros H. inversion H; subst. simpl. tauto.
Qed.

(** What [_shiplog] logs: the joined buffer less one trailing newline. *)
Lemma logged_line_newline (t : string) : logged_line (t ++ newline) = t.
Proof.
  unfold logged_line, newline. rewrite endswith_snoc, Ascii.eqb_refl.
  apply slice_to_snoc.
Qed.

Lemma logged_line_other (s : string) :
  endswith s newline = false -> logged_line s = s.
Proof. unfold logged_line. now intros ->. Qed.

End StringFacts.

(** ** Running the methods *)

Lemma exec_bind {A B : Type} (p : Prog A) (f : A -> Prog B) (w : World) :
  exec (bind p f) w =
  match outcome (exec p w) with
  | Done a =>
      let r := exec (f a) (world (exec p w)) in
      mkRun (world r) (trace (exec p w) ++ trace r) (outcome r)
  | Blocked => mkRun (world (exec p w)) (trace (exec p w)) Blocked
  | Raised e => mkRun (world (exec p w)) (trace (exec p w)) (Raised e)
  end.
Proof.
  revert w; induction p as [a | X e k IH]; intros w; simpl.
  - now destruct (exec (f a) w).
  - destruct (perform e w) as [x w' ev | | ex]; simpl; try reflexivity.
    rewrite IH. now destruct (outcome (exec (k x) w')).
Qed.

Lemma obj_set_obj (w : World) (r : Ref) (o : _BAConsoleRedirect) :
  obj (set_obj w r o) r = o.
Proof. now destruct r. Qed.

Lemma pending_set_obj (w : World) (r : Ref) (o : _BAConsoleRedirect) :
  pending (set_obj w r o) = pending w.
Proof. now destruct r. Qed.

Lemma Ref_eqb_eq (a b : Ref) : Ref_eqb a b = true <-> a = b.
Proof. destruct a, b; simpl; split; congruence. Qed.

Lemma Ref_eqb_refl (a : Ref) : Ref_eqb a a = true.
Proof. now destruct a. Qed.

(** Breaks a world into its fields so that [exec] computes. *)
Ltac open_world w self :=
  destruct w as [[? ? ? ? ?] [? ? ? ? ?] ?]; destruct self; simpl in *; subst.

(** [_shiplog] from a state in which nobody holds the lock. *)
Lemma shiplog_exec (self : Ref) (w : World) :
  _lock (obj w self) = false ->
  exec (_shiplog self) w =
  let bits := _linebits (obj w self) in
  if truthy (join "" bits)
  then mkRun (drained w self)
             [EAcquire self; EGetBits self bits; ESetBits self [];
              ERelease self; ELog (logged_line (join "" bits)) false]
             (Done tt)
  else mkRun w [EAcquire self; EGetBits self bits; ERelease self] (Done tt).
Proof.
  intros Hl. unfold _shiplog, drained.
  open_world w self; cbn;
    match goal with |- context [truthy ?x] => destruct (truthy x) end;
    reflexivity.
Qed.

(** [write] from a state in which nobody holds the lock. *)
Lemma write_exec (self : Ref) (sval : string) (w : World) :
  _lock (obj w self) = false ->
  exec (write self sval) w =
  let pre := [EEcho (_call (obj w self)) sval; EAcquire self;
              EAppend self sval; ERelease self] in
  if endswith sval newline
  then let r := exec (_shiplog self) (appended w self sval) in
       mkRun (world r) (pre ++ trace r) (outcome r)
  else mkRun (push (appended w self sval) (deferred_ship self))
             (pre ++ [EPushcall (deferred_ship self)]) (Done tt).
Proof.
  intros Hl. unfold write, appended, deferred_ship.
  open_world w self; cbn; destruct (endswith sval newline); reflexivity.
Qed.

Lemma truthy_join_cases (bits : list string) :
  (truthy (join "" bits) = false /\ join "" bits = ""%string) \/
  (truthy (join "" bits) = true /\ join "" bits <> ""%string).
Proof.
  destruct (join "" bits); simpl; [left | right]; split; congruence.
Qed.

(** ** Threads and the lock *)

Lemma well_locked_ext {A : Type} (p : Prog A) (h h' : Ref -> bool) :
  (forall r, h r = h' r) -> well_locked p h -> well_locked p h'.
Proof.
  revert h h'; induction p as [a | X e k IH]; intros h h' Hh; simpl.
  - intros H r. now rewrite <- Hh.
  - intros [Hg Hk]. split.
    + destruct e; simpl in *; try (now rewrite <- Hh);
        intros r; now rewrite <- Hh.
    + intros x. apply (IH x (after_act e h)); [| apply Hk].
      intros r. destruct e; simpl; try apply Hh; now rewrite Hh.
Qed.

Lemma well_locked_bind {A B : Type} (p : Prog A) (f : A -> Prog B) (h : Ref -> bool) :
  well_locked p h ->
  (forall a, well_locked (f a) (fun _ => false)) ->
  well_locked (bind p f) h.
Proof.
  revert h; induction p as [a | X e k IH]; intros h Hp Hf; simpl in *.
  - apply (well_locked_ext (f a) (fun _ => false)); [| apply Hf].
    intros r. now rewrite Hp.
  - destruct Hp as [Hg Hk]. split; [exact Hg |].
    intros x. apply IH; [apply Hk | exact Hf].
Qed.

Lemma shiplog_well_locked (self : Ref) :
  well_locked (_shiplog self) (fun _ => false).
Proof.
  unfold _shiplog. destruct self; simpl;
    (split; [reflexivity |]; intros _; split; [reflexivity |]; intros bits;
     destruct (truthy (join "" bits)); simpl; repeat split;
     try (intros []; reflexivity); try (intros _ []; reflexivity)).
Qed.

Lemma op_well_locked (o : Op) : well_locked (op_prog o) (fun _ => false).
Proof.
  destruct o as [self sval | self | self | ].
  - pose proof (shiplog_well_locked self) as Hs.
    simpl. split; [reflexivity |]. intros _.
    split; [reflexivity |]. intros _.
    split; [simpl; now rewrite Ref_eqb_refl |]. intros _.
    split; [simpl; now rewrite Ref_eqb_refl |]. intros _.
    assert (Hnone : forall r,
               after_act (ARelease self)
                 (after_act (AAppend self sval)
                    (after_act (AAcquire self)
                       (after_act (AEcho self sval) (fun _ => false)))) r = false).
    { intros r. simpl. now destruct (Ref_eqb r self). }
    destruct (endswith sval newline).
    + apply (well_locked_ext _ (fun _ => false));
        [intros r; symmetry; apply Hnone | exact Hs].
    + simpl. split; [exact Hnone |]. intros _. exact Hnone.
  - simpl. repeat split.
  - simpl. repeat split.
  - simpl. split; [reflexivity |]. intros [c |]; simpl;
      [apply shiplog_well_locked | reflexivity].
Qed.

Lemma ops_well_locked (l : list Op) : well_locked (ops_prog l) (fun _ => false).
Proof.
  induction l as [|o l IH]; simpl; [reflexivity |].
  apply well_locked_bind; [apply op_well_locked | intros _; exact IH].
Qed.

Lemma owns_true (own : Owners) (i : nat) (r : Ref) :
  owns own i r = true <-> own r = Some i.
Proof.
  unfold owns. destruct (own r) as [j |]; [| split; discriminate].
  rewrite Nat.eqb_eq. split; congruence.
Qed.

Lemma nth_error_set_nth {A : Type} (l : list A) (i j : nat) (x y : A) :
  nth_error (set_nth i x l) j = Some y ->
  (j = i /\ y = x) \/ (j <> i /\ nth_error l j = Some y).
Proof.
  revert i j; induction l as [|a l IH]; intros i j; simpl.
  - destruct i, j; discriminate.
  - destruct i as [|i]; destruct j as [|j]; simpl; intros H.
    + left. split; congruence.
    + right. split; [discriminate | exact H].
    + right. split; [discriminate | exact H].
    + destruct (IH i j H) as [[-> ->] | [Hn Hj]]; [now left | right].
      split; [congruence | exact Hj].
Qed.

Lemma lock_set_obj_bits (w : World) (self r : Ref) (l : list string) :
  _lock (obj (set_obj w self (set_linebits (obj w self) l)) r) = _lock (obj w r).
Proof. now destruct self, r. Qed.

Lemma lock_set_obj_lock (w : World) (self r : Ref) (b : bool) :
  _lock (obj (set_obj w self (set_lock (obj w self) b)) r) =
  if Ref_eqb r self then b else _lock (obj w r).
Proof. now destruct self, r. Qed.

(** One action of thread [i], performed in a world that agrees with the
    owners, is allowed by the discipline and keeps the agreement. *)
Lemma perform_step {X : Type} (e : Act X) (w w' : World) (x : X) (ev : Event)
      (own : Owners) (i : nat) :
  (forall r, _lock (obj w r) = match own r with Some _ => true | None => false end) ->
  guard e (owns own i) ->
  perform e w = Ok x w' ev ->
  allowed own i ev /\
  (forall r, _lock (obj w' r) =
             match next_owners own i ev r with Some _ => true | None => false end) /\
  (forall r, after_act e (owns own i) r = owns (next_owners own i ev) i r) /\
  (forall j, j <> i -> forall r, owns (next_owners own i ev) j r = owns own j r).
Proof.
  intros Hinv Hg Hp.
  destruct e as [self sval | self | self | self sval | self | self l | c
                | line to_stdout | self | self | ]; simpl in Hp, Hg.
  - inversion Hp; subst. simpl. auto.
  - destruct (_lock (obj w self)) eqn:Hlk; [discriminate |].
    inversion Hp; subst. clear Hp.
    assert (Hown : own self = None).
    { pose proof (Hinv self) as H. rewrite Hlk in H.
      destruct (own self); [discriminate | reflexivity]. }
    simpl. split; [exact Hown |]. split; [| split].
    + intros r. rewrite lock_set_obj_lock. unfold set_owner.
      destruct (Ref_eqb r self); [reflexivity | apply Hinv].
    + intros r. unfold owns, set_owner.
      destruct (Ref_eqb r self); [now rewrite Nat.eqb_refl | reflexivity].
    + intros j Hj r. unfold owns, set_owner.
      destruct (Ref_eqb r self) eqn:Hr; [| reflexivity].
      apply Ref_eqb_eq in Hr. subst r. rewrite Hown.
      now apply Nat.eqb_neq.
  - destruct (_lock (obj w self)) eqn:Hlk; [| discriminate].
    inversion Hp; subst. clear Hp.
    apply owns_true in Hg.
    simpl. split; [exact Hg |]. split; [| split].
    + intros r. rewrite lock_set_obj_lock. unfold set_owner.
      destruct (Ref_eqb r self); [reflexivity | apply Hinv].
    + intros r. unfold owns, set_owner.
      destruct (Ref_eqb r self); reflexivity.
    + intros j Hj r. unfold owns, set_owner.
      destruct (Ref_eqb r self) eqn:Hr; [| reflexivity].
      apply Ref_eqb_eq in Hr. subst r. rewrite Hg.
      symmetry. now apply Nat.eqb_neq.
  - inversion Hp; subst. apply owns_true in Hg. simpl.
    split; [exact Hg |]. split; [| auto].
    intros r. rewrite lock_set_obj_bits. apply Hinv.
  - inversion Hp; subst. apply owns_true in Hg. simpl. auto.
  - inversion Hp; subst. apply owns_true in Hg. simpl.
    split; [exact Hg |]. split; [| auto].
    intros r. rewrite lock_set_obj_bits. apply Hinv.
  - inversion Hp; subst. simpl. split; [exact Hg |]. split; [| auto].
    intros r. rewrite <- Hinv. now destruct r.
  - inversion Hp; subst. simpl. auto.
  - inversion Hp; subst. simpl. auto.
  - inversion Hp; subst. simpl. auto.
  - destruct (pending w) as [|c q]; inversion Hp; subst; simpl;
      (split; [exact Hg |]; split; [| auto]);
      intros r; rewrite <- Hinv; now destruct r.
Qed.

(** A step of some thread keeps the invariant and obeys the discipline. *)
Lemma thread_step_inv (own : Owners) (w w' : World) (pool pool' : Pool)
      (i : nat) (ev : Event) :
  pool_inv own w pool ->
  thread_step i w pool = Some (w', pool', ev) ->
  allowed own i ev /\ pool_inv (next_owners own i ev) w' pool'.
Proof.
  intros [Hlocks Hpool] Hstep. unfold thread_step in Hstep.
  destruct (nth_error pool i) as [[a | X e k] |] eqn:Hi; try discriminate.
  destruct (perform e w) as [x w1 ev1 | | ex] eqn:Hp; try discriminate.
  inversion Hstep; subst. clear Hstep.
  destruct (Hpool i _ Hi) as [Hg Hk].
  destruct (perform_step e w w' x ev own i Hlocks Hg Hp)
    as (Hal & Hlocks' & Hme & Hothers).
  split; [exact Hal |]. split; [exact Hlocks' |].
  intros j p Hj.
  destruct (nth_error_set_nth pool i j (k x) p Hj) as [[-> ->] | [Hne Hj']].
  - apply (well_locked_ext _ (after_act e (owns own i))); [exact Hme | apply Hk].
  - apply (well_locked_ext _ (owns own j)); [| now apply Hpool].
    intros r. symmetry. now apply Hothers.
Qed.

Lemma run_schedule_disciplined (sch : list nat) (own : Owners) (w : World) (pool : Pool) :
  pool_inv own w pool ->
  disciplined own (snd (run_schedule sch w pool)).
Proof.
  revert own w pool; induction sch as [|i sch IH]; intros own w pool Hinv;
    [exact I |].
  simpl. destruct (thread_step i w pool) as [[[w' pool'] ev] |] eqn:Hs.
  - destruct (thread_step_inv own w w' pool pool' i ev Hinv Hs) as [Hal Hinv'].
    specialize (IH _ _ _ Hinv').
    destruct (run_schedule sch w' pool') as [[w'' pool''] tr]. simpl in *.
    now split.
  - now apply IH.
Qed.

Lemma disciplined_app (own : Owners) (a b : list (nat * Event)) :
  disciplined own (a ++ b) <->
  disciplined own a /\ disciplined (owners_after own a) b.
Proof.
  revert own; induction a as [|[i e] a IH]; intros own; simpl; [tauto |].
  rewrite IH. tauto.
Qed.

(** While a thread owns a lock and does not release it, nobody else
    touches the buffer the lock protects. *)
Lemma owned_section (own : Owners) (mid : list (nat * Event)) (i : nat) (r : Ref) :
  disciplined own mid ->
  own r = Some i ->
  ~ In (i, ERelease r) mid ->
  (forall j e, In (j, e) mid -> touches_buffer_of r e = true -> j = i) /\
  owners_after own mid r = Some i.
Proof.
  revert own; induction mid as [|[j e] mid IH]; intros own Hd Hown Hrel;
    [now split |].
  simpl in Hd. destruct Hd as [Hal Hd].
  assert (Hnext : next_owners own j e r = Some i).
  { destruct e as [| r' | r' | | | | | | | |]; simpl; try exact Hown.
    - unfold set_owner. destruct (Ref_eqb r r') eqn:Hr; [| exact Hown].
      apply Ref_eqb_eq in Hr. subst r'. simpl in Hal. congruence.
    - unfold set_owner. destruct (Ref_eqb r r') eqn:Hr; [| exact Hown].
      apply Ref_eqb_eq in Hr. subst r'. simpl in Hal.
      assert (j = i) by congruence. subst j.
      exfalso. apply Hrel. now left. }
  destruct (IH _ Hd Hnext) as [Hmid Hafter].
  { intros Hin. apply Hrel. now right. }
  split; [| exact Hafter].
  intros j' e' [Heq | Hin] Ht; [| now apply (Hmid j' e')].
  inversion Heq; subst j' e'. clear Heq.
  destruct e as [| | | r' s | r' l | r' l | | | | |]; simpl in Ht;
    try discriminate;
    apply Ref_eqb_eq in Ht; subst r'; simpl in Hal; congruence.
Qed.

(** Threads that each run a sequence of operations, scheduled in any
    order from a state with no lock held, observe the lock discipline:
    every access to a buffer is made by the owner of its lock, and every
    call out of an instance (echo, [_ba.pushcall], [_ba.log], the wrapped
    stream) is made by a thread that owns no lock. *)
Theorem threads_respect_locks (progs : list (list Op)) (w : World) (sch : list nat) :
  lock_free w ->
  disciplined no_owner (snd (run_schedule sch w (map ops_prog progs))).
Proof.
  intros Hf. apply run_schedule_disciplined. split.
  - intros r. apply Hf.
  - intros i p Hi. apply nth_error_In, in_map_iff in Hi as (l & <- & _).
    apply (well_locked_ext _ (fun _ => false)); [reflexivity |].
    apply ops_well_locked.
Qed.

(** In such a run, between the read of a buffer by [_shiplog] and its
    assignment in the same critical section, no other thread appends to
    the buffer, reads it or assigns it: the fragments read are all the
    fragments there are when the buffer is emptied. *)
Lemma drain_is_atomic (progs : list (list Op)) (w : World) (sch : list nat)
        (pre mid post : list (nat * Event)) (i : nat) (r : Ref)
        (bits l : list string) :
  lock_free w ->
  snd (run_schedule sch w (map ops_prog progs)) =
    pre ++ (i, EGetBits r bits) :: mid ++ (i, ESetBits r l) :: post ->
  ~ In (i, ERelease r) mid ->
  forall j e, In (j, e) mid -> touches_buffer_of r e = true -> j = i.
Proof.
  intros Hf Htr Hrel.
  pose proof (threads_respect_locks progs w sch Hf) as Hd.
  rewrite Htr in Hd. apply disciplined_app in Hd as [_ Hd].
  simpl in Hd. destruct Hd as [Hown Hd].
  apply disciplined_app in Hd as [Hd _].
  exact (proj1 (owned_section _ mid i r Hd Hown Hrel)).
Qed.

(** In such a run every call of an echo callback, of [_ba.pushcall] and of
    [_ba.log] is made by a thread that owns no lock at that point. *)
Lemma calls_out_hold_no_lock (progs : list (list Op)) (w : World) (sch : list nat)
        (pre post : list (nat * Event)) (i : nat) (e : Event) :
  lock_free w ->
  snd (run_schedule sch w (map ops_prog progs)) = pre ++ (i, e) :: post ->
  is_external e = true ->
  forall r, owns (owners_after no_owner pre) i r = false.
Proof.
  intros Hf Htr He.
  pose proof (threads_respect_locks progs w sch Hf) as Hd.
  rewrite Htr in Hd. apply disciplined_app in Hd as [_ Hd].
  simpl in Hd. destruct Hd as [Hal _].
  destruct e; simpl in He; try discriminate; exact Hal.
Qed.

(** A thread that finds the lock taken waits: thread 1 echoes, then makes
    no step while thread 0 is inside its critical section. *)
Example waiting_for_the_lock :
  snd (run_schedule [0; 0; 1; 1; 1]
         (_ballistica_bootstrap (mkTextIO 1 true) (mkTextIO 2 true))
         [write sys_stdout "a"; write sys_stdout "b"]) =
  [(0, EEcho print_stdout "a"); (0, EAcquire sys_stdout);
   (1, EEcho print_stdout "b")].
Proof. reflexivity. Qed.

(** While thread 0 drains the buffer, thread 1 may echo, but its append
    has to wait until the lock is released. *)
Example echo_during_drain :
  snd (run_schedule [0; 0; 0; 0; 0; 0; 1; 1; 0; 0; 0; 1; 1; 1; 1]
         (_ballistica_bootstrap (mkTextIO 1 true) (mkTextIO 2 true))
         [write sys_stdout ("a" ++ newline); write sys_stdout "b"]) =
  [(0, EEcho print_stdout ("a" ++ newline)); (0, EAcquire sys_stdout);
   (0, EAppend sys_stdout ("a" ++ newline)); (0, ERelease sys_stdout);
   (0, EAcquire sys_stdout); (0, EGetBits sys_stdout [("a" ++ newline)%string]);
   (1, EEcho print_stdout "b");
   (0, ESetBits sys_stdout []); (0, ERelease sys_stdout);
   (0, ELog "a" false);
   (1, EAcquire sys_stdout); (1, EAppend sys_stdout "b");
   (1, ERelease sys_stdout); (1, EPushcall (deferred_ship sys_stdout))].
Proof. reflexivity. Qed.

(** Two threads write one complete line each; when both have appended
    before either ships, the first [_shiplog] takes both fragments and the
    second finds nothing. *)
Example two_threads_one_record :
  let w := _ballistica_bootstrap (mkTextIO 1 true) (mkTextIO 2 true) in
  let pool := [write sys_stdout ("a" ++ newline);
               write sys_stdout ("b" ++ newline)] in
  let sch := [0; 0; 0; 0; 1; 1; 1; 1; 0; 0; 0; 0; 0; 1; 1; 1] in
  records (map snd (snd (run_schedule sch w pool))) =
  [(("a" ++ newline ++ "b")%string, false)].
Proof. reflexivity. Qed.

(** ** flush and isatty *)

(** C8: [flush()] and [isatty()] only delegate to the wrapped stream.  In
    every world, [flush] performs the single action [original.flush()] and
    [isatty] the single action [original.isatty()], whose answer it
    returns; the world (both buffers, both locks, the pending requests and
    every other field) is left as it was, and no buffer access, lock
    operation, log record or Scheduler request occurs. *)
Theorem flush_isatty_delegate (self : Ref) (w : World) :
  exec (flush self) w =
    mkRun w [EFlush (_original (obj w self))] (Done tt) /\
  exec (isatty self) w =
    mkRun w [EIsatty (_original (obj w self)) (io_isatty (_original (obj w self)))]
          (Done (io_isatty (_original (obj w self)))) /\
  ships (trace (exec (flush self) w)) = 0 /\
  ships (trace (exec (isatty self) w)) = 0 /\
  existsb touches_buffer (trace (exec (flush self) w)) = false /\
  existsb touches_buffer (trace (exec (isatty self) w)) = false.
Proof. repeat split. Qed.

(** ** write *)

(** When some other thread holds the lock, [write] has echoed and waits. *)
Lemma write_exec_blocked (self : Ref) (sval : string) (w : World) :
  _lock (obj w self) = true ->
  exec (write self sval) w =
  mkRun w [EEcho (_call (obj w self)) sval] Blocked.
Proof. intros Hl. unfold write. open_world w self; reflexivity. Qed.

Lemma appended_lock (w : World) (self : Ref) (sval : string) :
  _lock (obj (appended w self sval) self) = _lock (obj w self).
Proof. unfold appended. now rewrite obj_set_obj. Qed.

Lemma appended_bits (w : World) (self : Ref) (sval : string) :
  _linebits (obj (appended w self sval) self) = _linebits (obj w self) ++ [sval].
Proof. unfold appended. now rewrite obj_set_obj. Qed.

(** The trace of [write] past the echo, from a state with the lock free. *)
Lemma write_trace (self : Ref) (sval : string) (w : World) :
  _lock (obj w self) = false ->
  trace (exec (write self sval) w) =
  EEcho (_call (obj w self)) sval :: EAcquire self :: EAppend self sval ::
  ERelease self ::
  (if endswith sval newline
   then trace (exec (_shiplog self) (appended w self sval))
   else [EPushcall (deferred_ship self)]).
Proof.
  intros Hl. rewrite (write_exec self sval w Hl). cbv zeta.
  now destruct (endswith sval newline).
Qed.

Lemma shiplog_trace (self : Ref) (w : World) :
  _lock (obj w self) = false ->
  trace (exec (_shiplog self) w) =
  let bits := _linebits (obj w self) in
  if truthy (join "" bits)
  then [EAcquire self; EGetBits self bits; ESetBits self [];
        ERelease self; ELog (logged_line (join "" bits)) false]
  else [EAcquire self; EGetBits self bits; ERelease self].
Proof.
  intros Hl. rewrite (shiplog_exec self w Hl). cbv zeta.
  now destruct (truthy _).
Qed.

(** C4: every [write(text)] calls the echo callback of its instance exactly
    once, with [text] itself.  The call is the first action of [write]:
    nothing has been appended to a buffer, read from it or logged before,
    and the calling thread has taken no lock.  This holds in every world,
    whatever the buffers hold and whether or not anything is shipped, also
    when the lock is held elsewhere and [write] has to wait for it.  When
    several threads run operations under any schedule, a thread that calls
    an echo callback owns no lock at that point. *)
Theorem write_echoes_once_first (self : Ref) (text : string) (w : World) :
  let tr := trace (exec (write self text) w) in
  echoes tr = [(_call (obj w self), text)] /\
  (exists rest, tr = EEcho (_call (obj w self)) text :: rest) /\
  (forall pre f s post,
      tr = pre ++ EEcho f s :: post ->
      pre = [] /\
      existsb touches_buffer pre = false /\
      records pre = [] /\
      pushcalls pre = [] /\
      forall r, holds_lock r pre false = false) /\
  (forall (progs : list (list Op)) (w0 : World) (sch : list nat)
          (pre post : list (nat * Event)) (i : nat) (f : PrintFn) (s : string),
      lock_free w0 ->
      snd (run_schedule sch w0 (map ops_prog progs)) =
        pre ++ (i, EEcho f s) :: post ->
      forall r, owns (owners_after no_owner pre) i r = false).
Proof.
  cbv zeta.
  assert (H : exists rest,
             trace (exec (write self text) w) =
               EEcho (_call (obj w self)) text :: rest /\ echoes rest = []).
  { destruct (_lock (obj w self)) eqn:Hl.
    - rewrite (write_exec_blocked self text w Hl). now exists [].
    - rewrite (write_trace self text w Hl). eexists; split; [reflexivity |].
      destruct (endswith text newline); [| reflexivity].
      rewrite shiplog_trace by (now rewrite appended_lock).
      cbv zeta. now destruct (truthy _). }
  destruct H as (rest & Htr & Hrest). rewrite Htr.
  split; [simpl; now rewrite Hrest |].
  split; [now exists rest |].
  split.
  - intros pre f s post Hsplit.
    assert (pre = []) as ->.
    { destruct pre as [|e pre]; [reflexivity | exfalso].
      simpl in Hsplit. inversion Hsplit as [[He Hr]].
      rewrite Hr in Hrest. unfold echoes in Hrest.
      rewrite flat_map_app in Hrest. simpl in Hrest.
      apply app_eq_nil in Hrest as [_ Hrest]. discriminate. }
    repeat split.
  - intros progs w0 sch pre post i f s Hf Hsch.
    now apply (calls_out_hold_no_lock progs w0 sch pre post i (EEcho f s)).
Qed.

(** C3: from a state in which the lock is free, [write(text)] runs
    [_shiplog] itself exactly when [text] ends with a newline, and then
    hands nothing to [_ba.pushcall]: what follows the append is the run of
    [_shiplog].  Otherwise it runs no [_shiplog], logs nothing, and hands
    [_ba.pushcall] exactly one request, for its own [_shiplog], with
    [from_other_thread=True] and [suppress_other_thread_warning=True]. *)
Theorem write_ships_iff_newline (self : Ref) (text : string) (w : World) :
  _lock (obj w self) = false ->
  let r := exec (write self text) w in
  let pre := [EEcho (_call (obj w self)) text; EAcquire self;
              EAppend self text; ERelease self] in
  let request := {| pc_self := self; from_other_thread := true;
                    suppress_other_thread_warning := true |} in
  outcome r = Done tt /\
  (endswith text newline = true ->
     trace r = pre ++ trace (exec (_shiplog self) (appended w self text)) /\
     world r = world (exec (_shiplog self) (appended w self text)) /\
     ships (trace r) = 1 /\
     pushcalls (trace r) = [] /\
     pending (world r) = pending w) /\
  (endswith text newline = false ->
     trace r = pre ++ [EPushcall request] /\
     ships (trace r) = 0 /\
     records (trace r) = [] /\
     pushcalls (trace r) = [request] /\
     pending (world r) = pending w ++ [request]) /\
  (ships (trace r) = 1 <-> endswith text newline = true) /\
  (pushcalls (trace r) = [] <-> endswith text newline = true).
Proof.
  intros Hl. cbv zeta.
  assert (Hla : _lock (obj (appended w self text) self) = false)
    by (now rewrite appended_lock).
  rewrite (write_exec self text w Hl). cbv zeta.
  pose proof (shiplog_exec self (appended w self text) Hla) as Hs.
  cbv zeta in Hs.
  destruct (endswith text newline) eqn:He.
  - rewrite Hs. destruct (truthy _); simpl;
      unfold drained, appended; rewrite ?pending_set_obj;
      repeat split; try discriminate; try reflexivity.
  - simpl. unfold appended. rewrite pending_set_obj.
    repeat split; try discriminate; try reflexivity.
Qed.

Lemma write_ships_iff_newline_witness :
  let w := _ballistica_bootstrap (mkTextIO 1 true) (mkTextIO 2 true) in
  let r := exec (write sys_stdout ("x" ++ newline)) w in
  _lock (obj w sys_stdout) = false /\
  (ships (trace r) = 1 <-> endswith ("x" ++ newline) newline = true) /\
  (pushcalls (trace r) = [] <-> endswith ("x" ++ newline) newline = true).
Proof.
  cbv zeta. split; [reflexivity |].
  exact (proj2 (proj2 (proj2 (write_ships_iff_newline
    sys_stdout ("x" ++ newline)
    (_ballistica_bootstrap (mkTextIO 1 true) (mkTextIO 2 true))
    eq_refl)))).
Defined.

(** ** _shiplog *)

Lemma drained_lock (w : World) (self : Ref) :
  _lock (obj (drained w self) self) = _lock (obj w self).
Proof. unfold drained. now rewrite obj_set_obj. Qed.

Lemma drained_bits (w : World) (self : Ref) :
  _linebits (obj (drained w self) self) = [].
Proof. unfold drained. now rewrite obj_set_obj. Qed.

(** [_shiplog] always returns when the lock is free, and leaves it free. *)
Lemma shiplog_done (self : Ref) (w : World) :
  _lock (obj w self) = false ->
  outcome (exec (_shiplog self) w) = Done tt /\
  _lock (obj (world (exec (_shiplog self) w)) self) = false.
Proof.
  intros Hl. rewrite (shiplog_exec self w Hl). cbv zeta.
  destruct (truthy _); simpl; [now rewrite drained_lock | easy].
Qed.

(** The records of one [_shiplog]: none for a buffer without text, else
    the joined buffer less one trailing newline. *)
Lemma shiplog_records (self : Ref) (w : World) :
  _lock (obj w self) = false ->
  records (trace (exec (_shiplog self) w)) =
  if truthy (join "" (_linebits (obj w self)))
  then [(logged_line (join "" (_linebits (obj w self))), false)]
  else [].
Proof.
  intros Hl. rewrite (shiplog_trace self w Hl). cbv zeta.
  now destruct (truthy _).
Qed.

(** After [_shiplog] the buffer joins to the empty string. *)
Lemma shiplog_leaves_no_text (self : Ref) (w : World) :
  _lock (obj w self) = false ->
  join "" (_linebits (obj (world (exec (_shiplog self) w)) self)) = ""%string.
Proof.
  intros Hl. rewrite (shiplog_exec self w Hl). cbv zeta.
  destruct (truthy_join_cases (_linebits (obj w self))) as [[Ht Hj] | [Ht Hj]];
    rewrite Ht; simpl; [exact Hj | now rewrite drained_bits].
Qed.

(** C7: from a state with the lock free and an empty buffer, [_shiplog]
    hands nothing to [_ba.log], makes no other call out of the instance and
    leaves the world as it was.  Hence running [_shiplog] twice in a row is
    the same as running it once, from any state with the lock free: same
    final world, same calls out of the instance, same outcome. *)
Theorem shiplog_empty_noop_idempotent (self : Ref) (w : World) :
  _lock (obj w self) = false ->
  (_linebits (obj w self) = [] ->
     world (exec (_shiplog self) w) = w /\
     records (trace (exec (_shiplog self) w)) = [] /\
     external (trace (exec (_shiplog self) w)) = [] /\
     outcome (exec (_shiplog self) w) = Done tt) /\
  (let once := exec (_shiplog self) w in
   let twice := exec (_shiplog self ;; _shiplog self) w in
   world twice = world once /\
   records (trace twice) = records (trace once) /\
   external (trace twice) = external (trace once) /\
   outcome twice = outcome once).
Proof.
  intros Hl. split.
  - intros Hb. rewrite (shiplog_exec self w Hl). cbv zeta. rewrite Hb.
    repeat split.
  - cbv zeta. rewrite exec_bind.
    destruct (shiplog_done self w Hl) as [Hout Hl'].
    pose proof (shiplog_leaves_no_text self w Hl) as Hj.
    rewrite Hout. cbv zeta.
    set (w1 := world (exec (_shiplog self) w)) in *.
    rewrite (shiplog_exec self w1 Hl'). cbv zeta.
    apply truthy_false_iff in Hj. rewrite Hj. simpl.
    unfold records, external. rewrite flat_map_app, filter_app. simpl.
    rewrite !app_nil_r. repeat split.
Qed.

Lemma shiplog_empty_noop_idempotent_witness :
  let w := _ballistica_bootstrap (mkTextIO 1 true) (mkTextIO 2 true) in
  _lock (obj w sys_stdout) = false /\
  _linebits (obj w sys_stdout) = [] /\
  world (exec (_shiplog sys_stdout) w) = w /\
  records (trace (exec (_shiplog sys_stdout) w)) = [] /\
  world (exec (_shiplog sys_stdout ;; _shiplog sys_stdout) w) =
    world (exec (_shiplog sys_stdout) w).
Proof.
  cbv zeta.
  pose proof (shiplog_empty_noop_idempotent sys_stdout
    (_ballistica_bootstrap (mkTextIO 1 true) (mkTextIO 2 true)) eq_refl)
    as [Hempty Htwice].
  destruct (Hempty eq_refl) as (Hw & Hr & _).
  destruct Htwice as (Ht & _).
  repeat split; assumption.
Defined.

(** The logged line still ends with a newline exactly when the joined
    buffer ended with two of them. *)
Lemma logged_line_ends_newline_iff (line : string) :
  endswith (logged_line line) newline = true <->
  exists t, line = (t ++ newline ++ newline)%string.
Proof.
  split.
  - intros H. destruct (endswith line newline) eqn:He.
    + apply endswith_newline_iff in He as [u ->].
      rewrite logged_line_newline in H.
      apply endswith_newline_iff in H as [t ->].
      exists t. now rewrite append_assoc.
    + rewrite (logged_line_other _ He) in H. congruence.
  - intros [t ->]. rewrite <- append_assoc, logged_line_newline.
    apply endswith_newline_iff. now exists t.
Qed.

(** C5, as the claim states it, fails: the buffer [["a\n\n"]], which
    [write("a\n\n")] builds before it ships, is logged as ["a\n"], a record
    that ends with a newline. *)
Lemma shiplog_record_may_end_with_newline :
  let w := _ballistica_bootstrap (mkTextIO 1 true) (mkTextIO 2 true) in
  let text := ("a" ++ newline ++ newline)%string in
  records (trace (exec (_shiplog sys_stdout) (appended w sys_stdout text))) =
    [(("a" ++ newline)%string, false)] /\
  records (trace (exec (write sys_stdout text) w)) =
    [(("a" ++ newline)%string, false)] /\
  endswith ("a" ++ newline) newline = true /\
  ~ (forall rec,
        In rec (records (trace (exec (write sys_stdout text) w))) ->
        endswith (fst rec) newline = false).
Proof.
  cbv zeta. repeat split.
  intros H. specialize (H (("a" ++ newline)%string, false) (or_introl eq_refl)).
  discriminate H.
Qed.

(** C5, amended: from a state with the lock free, [_shiplog] joins the
    fragments of the buffer into one string.  If the string is empty
    nothing is logged.  Otherwise exactly one record is logged: the string
    less its last character when it ends with a newline, and the string
    itself when it does not.  Only one newline is removed, so the record
    ends with a newline exactly when the joined string ended with two. *)
Theorem shiplog_strips_one_newline (self : Ref) (w : World) :
  _lock (obj w self) = false ->
  let line := join "" (_linebits (obj w self)) in
  let recs := records (trace (exec (_shiplog self) w)) in
  (line = ""%string -> recs = []) /\
  (forall t, line = (t ++ newline)%string -> recs = [(t, false)]) /\
  (line <> ""%string -> endswith line newline = false ->
     recs = [(line, false)]) /\
  (forall rec, In rec recs ->
     (endswith (fst rec) newline = true <->
      exists t, line = (t ++ newline ++ newline)%string)).
Proof.
  intros Hl. cbv zeta. rewrite (shiplog_records self w Hl).
  destruct (truthy_join_cases (_linebits (obj w self))) as [[Ht Hj] | [Ht Hj]];
    rewrite Ht.
  - repeat split; try easy.
    + intros t Ht'. rewrite Ht' in Hj. destruct t; discriminate.
  - split; [easy |]. split; [| split].
    + intros t ->. now rewrite logged_line_newline.
    + intros _ He. now rewrite (logged_line_other _ He).
    + intros rec [<- | []]. simpl. apply logged_line_ends_newline_iff.
Qed.

Lemma shiplog_strips_one_newline_witness :
  let w := appended (_ballistica_bootstrap (mkTextIO 1 true) (mkTextIO 2 true))
                    sys_stdout ("ab" ++ newline) in
  _lock (obj w sys_stdout) = false /\
  records (trace (exec (_shiplog sys_stdout) w)) = [("ab"%string, false)].
Proof.
  cbv zeta. split; [reflexivity |].
  exact (proj1 (proj2 (shiplog_strips_one_newline sys_stdout
    (appended (_ballistica_bootstrap (mkTextIO 1 true) (mkTextIO 2 true))
              sys_stdout ("ab" ++ newline)) eq_refl)) "ab"%string eq_refl).
Defined.

(** C6, as the claim states it, fails: after [write("")] the buffer is
    [[""]]; the deferred [_shiplog] (run by the Scheduler, or called
    directly) joins it to the empty string and returns before the
    assignment, so the buffer is still [[""]] and not empty. *)
Lemma shiplog_keeps_empty_fragments :
  let w0 := _ballistica_bootstrap (mkTextIO 1 true) (mkTextIO 2 true) in
  let w := world (exec (write sys_stdout "") w0) in
  _lock (obj w sys_stdout) = false /\
  _linebits (obj w sys_stdout) = [""%string] /\
  outcome (exec (_shiplog sys_stdout) w) = Done tt /\
  _linebits (obj (world (exec (_shiplog sys_stdout) w)) sys_stdout) = [""%string] /\
  _linebits (obj (world (exec (write sys_stdout "" ;; fire) w0)) sys_stdout) <> [].
Proof. cbv zeta. repeat split. discriminate. Qed.

(** C6, amended: from a state with the lock free, [_shiplog] returns and
    leaves a buffer that holds no text.  When the buffer joins to a
    non-empty string, it is read and replaced by the empty list inside one
    critical section, with nothing in between, and the whole text read is
    logged after the lock is released.  When the buffer joins to the empty
    string (it is empty or holds only empty fragments), [_shiplog] returns
    without assigning and the buffer is left exactly as it was.  In both
    cases the buffer afterwards is the empty list or the untouched buffer,
    never a part of it.  The take is atomic: when several threads run
    operations under any schedule, no other thread touches the buffer
    between the read and the assignment one thread makes in a critical
    section. *)
Theorem shiplog_takes_all_or_nothing (self : Ref) (w : World) :
  _lock (obj w self) = false ->
  let bits := _linebits (obj w self) in
  let r := exec (_shiplog self) w in
  let after := _linebits (obj (world r) self) in
  outcome r = Done tt /\
  join "" after = ""%string /\
  _lock (obj (world r) self) = false /\
  (join "" bits <> ""%string ->
     trace r = [EAcquire self; EGetBits self bits; ESetBits self [];
                ERelease self; ELog (logged_line (join "" bits)) false] /\
     world r = drained w self /\
     after = []) /\
  (join "" bits = ""%string ->
     trace r = [EAcquire self; EGetBits self bits; ERelease self] /\
     world r = w /\
     after = bits /\
     Forall (fun s => s = ""%string) bits) /\
  (after = [] \/ after = bits) /\
  (forall (progs : list (list Op)) (w0 : World) (sch : list nat)
          (pre mid post : list (nat * Event)) (i : nat) (read l : list string),
      lock_free w0 ->
      snd (run_schedule sch w0 (map ops_prog progs)) =
        pre ++ (i, EGetBits self read) :: mid ++ (i, ESetBits self l) :: post ->
      ~ In (i, ERelease self) mid ->
      forall j e, In (j, e) mid -> touches_buffer_of self e = true -> j = i).
Proof.
  intros Hl. cbv zeta.
  destruct (shiplog_done self w Hl) as [Hout Hl'].
  pose proof (shiplog_leaves_no_text self w Hl) as Hj'.
  split; [exact Hout |]. split; [exact Hj' |]. split; [exact Hl' |].
  assert (Hatomic :
    forall (progs : list (list Op)) (w0 : World) (sch : list nat)
           (pre mid post : list (nat * Event)) (i : nat) (read l : list string),
      lock_free w0 ->
      snd (run_schedule sch w0 (map ops_prog progs)) =
        pre ++ (i, EGetBits self read) :: mid ++ (i, ESetBits self l) :: post ->
      ~ In (i, ERelease self) mid ->
      forall j e, In (j, e) mid -> touches_buffer_of self e = true -> j = i).
  { intros progs w0 sch pre mid post i read l Hf Htr Hrel.
    exact (drain_is_atomic progs w0 sch pre mid post i self read l Hf Htr Hrel). }
  rewrite (shiplog_exec self w Hl). cbv zeta.
  destruct (truthy_join_cases (_linebits (obj w self))) as [[Ht Hj] | [Ht Hj]];
    rewrite Ht; simpl.
  - split; [easy |]. split; [| split; [now right | exact Hatomic]].
    intros _. repeat split. now apply join_empty_iff.
  - rewrite drained_bits.
    split; [| split; [easy | split; [now left | exact Hatomic]]].
    intros _. repeat split.
Qed.

Lemma shiplog_takes_all_or_nothing_witness :
  let w := appended (_ballistica_bootstrap (mkTextIO 1 true) (mkTextIO 2 true))
                    sys_stderr "partial" in
  _lock (obj w sys_stderr) = false /\
  outcome (exec (_shiplog sys_stderr) w) = Done tt /\
  join "" (_linebits (obj (world (exec (_shiplog sys_stderr) w)) sys_stderr)) =
    ""%string.
Proof.
  cbv zeta. split; [reflexivity |].
  pose proof (shiplog_takes_all_or_nothing sys_stderr
    (appended (_ballistica_bootstrap (mkTextIO 1 true) (mkTextIO 2 true))
              sys_stderr "partial") eq_refl) as (Hout & Hj & _).
  split; assumption.
Defined.

(** ** Sequences of operations *)

Lemma exec_bind_done {A B : Type} (p : Prog A) (f : A -> Prog B) (w : World) (a : A) :
  outcome (exec p w) = Done a ->
  exec (bind p f) w =
  mkRun (world (exec (f a) (world (exec p w))))
        (trace (exec p w) ++ trace (exec (f a) (world (exec p w))))
        (outcome (exec (f a) (world (exec p w)))).
Proof. intros H. rewrite exec_bind, H. reflexivity. Qed.

Lemma exec_bind_assoc {A B C : Type} (p : Prog A) (f : A -> Prog B)
      (g : B -> Prog C) (w : World) :
  exec (bind (bind p f) g) w = exec (bind p (fun x => bind (f x) g)) w.
Proof.
  revert w; induction p as [a | X e k IH]; intros w; simpl; [reflexivity |].
  destruct (perform e w); [now rewrite IH | reflexivity | reflexivity].
Qed.

Lemma exec_ops_app (l l' : list Op) (w : World) :
  exec (ops_prog (l ++ l')) w = exec (ops_prog l ;; ops_prog l') w.
Proof.
  revert w; induction l as [|o l IH]; intros w; [reflexivity |].
  simpl ops_prog. rewrite exec_bind_assoc.
  rewrite (exec_bind (op_prog o)), (exec_bind (op_prog o) (fun _ => _ ;; _)).
  destruct (outcome (exec (op_prog o) w)); [| reflexivity | reflexivity].
  cbv zeta. now rewrite IH.
Qed.

Lemma buffered_nil (w : World) (self : Ref) : buffered w self [] = w.
Proof.
  unfold buffered. simpl. rewrite !app_nil_r.
  destruct w as [[? ? ? ? ?] [? ? ? ? ?] ?]; now destruct self.
Qed.

Lemma buffered_cons (w : World) (self : Ref) (s : string) (ws : list string) :
  buffered (push (appended w self s) (deferred_ship self)) self ws =
  buffered w self (s :: ws).
Proof.
  unfold buffered, push, appended.
  destruct w as [[? ? ? ? ?] [? ? ? ? ?] ?]; destruct self; simpl;
    unfold set_pending, set_linebits; simpl; now rewrite <- !app_assoc.
Qed.

Lemma buffered_lock (w : World) (self r : Ref) (ws : list string) :
  _lock (obj (buffered w self ws) r) = _lock (obj w r).
Proof. unfold buffered. now destruct self, r. Qed.

Lemma buffered_bits (w : World) (self : Ref) (ws : list string) :
  _linebits (obj (buffered w self ws) self) = _linebits (obj w self) ++ ws.
Proof. unfold buffered. now destruct self. Qed.

Lemma buffered_call (w : World) (self r : Ref) (ws : list string) :
  _call (obj (buffered w self ws) r) = _call (obj w r).
Proof. unfold buffered. now destruct self, r. Qed.

Lemma buffered_pending (w : World) (self : Ref) (ws : list string) :
  pending (buffered w self ws) =
  pending w ++ map (fun _ => deferred_ship self) ws.
Proof. reflexivity. Qed.

Lemma writes_cons (self : Ref) (s : string) (ws : list string) :
  writes self (s :: ws) = (write self s ;; writes self ws).
Proof. reflexivity. Qed.

(** Writes of texts that do not end with a newline only accumulate. *)
Lemma writes_partial_exec (self : Ref) (ws : list string) (w : World) :
  _lock (obj w self) = false ->
  Forall (fun s => endswith s newline = false) ws ->
  exec (writes self ws) w =
  mkRun (buffered w self ws) (partial_trace (_call (obj w self)) self ws) (Done tt).
Proof.
  revert w; induction ws as [|s ws IH]; intros w Hl Hws.
  - unfold writes. simpl. now rewrite buffered_nil.
  - inversion Hws as [|? ? Hs Hws']; subst.
    rewrite writes_cons.
    pose proof (write_exec self s w Hl) as Hw. cbv zeta in Hw.
    rewrite Hs in Hw.
    rewrite (exec_bind_done (write self s) _ w tt)
      by (now rewrite Hw).
    rewrite Hw. cbn [world trace outcome].
    rewrite IH; [| | assumption].
    + simpl. rewrite buffered_cons. f_equal.
      unfold push, appended. now destruct self.
    + unfold push, appended. now destruct self.
Qed.

Lemma partial_trace_quiet (call : PrintFn) (self : Ref) (ws : list string) :
  ships (partial_trace call self ws) = 0 /\
  records (partial_trace call self ws) = [] /\
  pushcalls (partial_trace call self ws) = map (fun _ => deferred_ship self) ws.
Proof.
  induction ws as [|s ws (IH1 & IH2 & IH3)]; [easy |].
  unfold ships, records, pushcalls in *. simpl.
  repeat split; [assumption | assumption | now rewrite IH3].
Qed.

Lemma join_snoc_truthy (bits : list string) (wn : string) :
  endswith wn newline = true -> truthy (join "" (bits ++ [wn])) = true.
Proof.
  intros He. apply endswith_newline_iff in He as [t ->].
  rewrite join_snoc, <- append_assoc.
  destruct (join "" bits ++ t)%string; reflexivity.
Qed.

(** [write] of a text that ends with a newline appends it and ships the
    whole buffer at once. *)
Lemma write_newline_exec (self : Ref) (wn : string) (w : World) :
  _lock (obj w self) = false ->
  endswith wn newline = true ->
  exec (write self wn) w =
  mkRun (drained w self)
        [EEcho (_call (obj w self)) wn; EAcquire self; EAppend self wn;
         ERelease self; EAcquire self;
         EGetBits self (_linebits (obj w self) ++ [wn]);
         ESetBits self []; ERelease self;
         ELog (logged_line (join "" (_linebits (obj w self) ++ [wn]))) false]
        (Done tt).
Proof.
  intros Hl He. rewrite (write_exec self wn w Hl). cbv zeta. rewrite He.
  rewrite shiplog_exec by (now rewrite appended_lock). cbv zeta.
  rewrite appended_bits, (join_snoc_truthy _ _ He). simpl. f_equal.
  unfold drained, appended. destruct w as [[? ? ? ? ?] [? ? ? ? ?] ?].
  now destruct self.
Qed.

(** C1: on an instance whose lock is free and whose buffer holds no text,
    let [write(w1); ...; write(wn)] run with no deferred [_shiplog] in
    between, where [w1..w(n-1)] do not end with a newline and [wn] does.
    Then [_shiplog] runs exactly once, exactly one record is logged, and
    the record followed by one newline is the concatenation
    [w1 + ... + wn]; equivalently the record is that concatenation less its
    last character.  The [n-1] requests handed to [_ba.pushcall] are still
    pending and the buffer is empty again. *)
Theorem writes_until_newline_ship_once
        (self : Ref) (w : World) (ws : list string) (wn : string) :
  _lock (obj w self) = false ->
  join "" (_linebits (obj w self)) = ""%string ->
  Forall (fun s => endswith s newline = false) ws ->
  endswith wn newline = true ->
  let r := exec (writes self (ws ++ [wn])) w in
  let whole := join "" (ws ++ [wn]) in
  outcome r = Done tt /\
  ships (trace r) = 1 /\
  (exists line,
      records (trace r) = [(line, false)] /\
      whole = (line ++ newline)%string /\
      line = slice_to whole (-1)) /\
  echoes (trace r) = map (fun s => (_call (obj w self), s)) (ws ++ [wn]) /\
  pushcalls (trace r) = map (fun _ => deferred_ship self) ws /\
  pending (world r) = pending w ++ map (fun _ => deferred_ship self) ws /\
  _linebits (obj (world r) self) = [].
Proof.
  intros Hl Hj Hws He. cbv zeta.
  unfold writes. rewrite map_app, exec_ops_app.
  pose proof (writes_partial_exec self ws w Hl Hws) as Hp. unfold writes in Hp.
  rewrite (exec_bind_done _ _ w tt) by (now rewrite Hp).
  rewrite Hp. cbn [world trace outcome].
  change (ops_prog (map (OWrite self) [wn])) with (write self wn ;; Ret tt).
  assert (Hlb : _lock (obj (buffered w self ws) self) = false)
    by (now rewrite buffered_lock).
  pose proof (write_newline_exec self wn (buffered w self ws) Hlb He) as Hw.
  rewrite (exec_bind_done _ _ (buffered w self ws) tt)
    by (now rewrite Hw).
  rewrite Hw. cbn [world trace outcome exec app].
  rewrite buffered_bits, buffered_call, drained_bits.
  destruct (partial_trace_quiet (_call (obj w self)) self ws)
    as (Hships & Hrecs & Hpush).
  assert (Hwhole : join "" ((_linebits (obj w self) ++ ws) ++ [wn]) =
                   join "" (ws ++ [wn])).
  { rewrite <- app_assoc, join_app, Hj. reflexivity. }
  rewrite Hwhole.
  destruct (proj1 (endswith_newline_iff wn) He) as [t Ht].
  assert (Hline : join "" (ws ++ [wn]) = ((join "" ws ++ t) ++ newline)%string).
  { rewrite join_snoc, Ht. now rewrite append_assoc. }
  split; [reflexivity |].
  split.
  { unfold ships in *. rewrite flat_map_app, length_app, Hships. reflexivity. }
  split.
  { exists (logged_line (join "" (ws ++ [wn]))).
    unfold records in *. rewrite flat_map_app, Hrecs. simpl.
    split; [reflexivity |].
    rewrite Hline, logged_line_newline. split; [reflexivity |].
    unfold newline. now rewrite slice_to_snoc. }
  split.
  { unfold echoes, partial_trace. rewrite flat_map_app, map_app. simpl.
    f_equal. clear. induction ws as [|s ws IH]; [reflexivity |].
    simpl. now rewrite IH. }
  split.
  { unfold pushcalls in *. rewrite flat_map_app, Hpush. simpl.
    now rewrite app_nil_r. }
  split; [| reflexivity].
  unfold drained. now rewrite pending_set_obj.
Qed.

Lemma writes_until_newline_ship_once_witness :
  let w := _ballistica_bootstrap (mkTextIO 1 true) (mkTextIO 2 true) in
  let r := exec (writes sys_stdout (["a"%string] ++ [("b" ++ newline)%string])) w in
  _lock (obj w sys_stdout) = false /\
  join "" (_linebits (obj w sys_stdout)) = ""%string /\
  Forall (fun s => endswith s newline = false) ["a"%string] /\
  endswith ("b" ++ newline) newline = true /\
  ships (trace r) = 1 /\
  exists line,
    records (trace r) = [(line, false)] /\
    join "" (["a"%string] ++ [("b" ++ newline)%string]) = (line ++ newline)%string /\
    line = slice_to (join "" (["a"%string] ++ [("b" ++ newline)%string])) (-1).
Proof.
  cbv zeta.
  assert (H1 : Forall (fun s => endswith s newline = false) ["a"%string])
    by (constructor; [reflexivity | constructor]).
  pose proof (writes_until_newline_ship_once sys_stdout
    (_ballistica_bootstrap (mkTextIO 1 true) (mkTextIO 2 true))
    ["a"%string] ("b" ++ newline)%string
    eq_refl eq_refl H1 eq_refl) as (_ & Hs & Hr & _).
  repeat split; try assumption.
Defined.

(** Scenario A of the spec: [write("a"); write("b\n")] logs the single
    record ["ab"]. *)
Example scenario_A :
  records (trace (exec (write sys_stdout "a" ;; write sys_stdout ("b" ++ newline))
                       (_ballistica_bootstrap (mkTextIO 1 true) (mkTextIO 2 true)))) =
  [("ab"%string, false)].
Proof. reflexivity. Qed.

(** Scenario B: [write("x\n")] logs ["x"] and hands nothing to the
    Scheduler. *)
Example scenario_B :
  let r := exec (write sys_stdout ("x" ++ newline))
                (_ballistica_bootstrap (mkTextIO 1 true) (mkTextIO 2 true)) in
  records (trace r) = [("x"%string, false)] /\ pushcalls (trace r) = [] /\
  pending (world r) = [].
Proof. repeat split. Qed.

(** Scenario C: [write("partial")] leaves ["partial"] in the buffer, logs
    nothing and hands one request to the Scheduler. *)
Example scenario_C :
  let r := exec (write sys_stdout "partial")
                (_ballistica_bootstrap (mkTextIO 1 true) (mkTextIO 2 true)) in
  _linebits (obj (world r) sys_stdout) = ["partial"%string] /\
  records (trace r) = [] /\
  pending (world r) = [deferred_ship sys_stdout].
Proof. repeat split. Qed.

Lemma PushedCall_eqb_refl (c : PushedCall) : PushedCall_eqb c c = true.
Proof.
  unfold PushedCall_eqb. now rewrite Ref_eqb_refl, !Bool.eqb_reflx.
Qed.

Lemma count_occ_pushed_snoc (c : PushedCall) (q : list PushedCall) :
  count_occ_pushed c (q ++ [c]) = S (count_occ_pushed c q).
Proof.
  unfold count_occ_pushed. rewrite filter_app, length_app. simpl.
  rewrite PushedCall_eqb_refl. simpl. lia.
Qed.

(** [write] of a text without final newline, from a state with the lock
    free. *)
Lemma write_ships_spec_partial (self : Ref) (text : string) (w : World) :
  _lock (obj w self) = false ->
  endswith text newline = false ->
  trace (exec (write self text) w) =
    [EEcho (_call (obj w self)) text; EAcquire self; EAppend self text;
     ERelease self; EPushcall (deferred_ship self)] /\
  world (exec (write self text) w) =
    push (appended w self text) (deferred_ship self).
Proof.
  intros Hl He. rewrite (write_exec self text w Hl). cbv zeta.
  rewrite He. split; reflexivity.
Qed.

Lemma pending_push_appended (w : World) (self : Ref) (text : string) (c : PushedCall) :
  pending (push (appended w self text) c) = pending w ++ [c].
Proof. unfold push, appended. simpl. now rewrite pending_set_obj. Qed.

(** ** The field _pending_ship *)

(** No action looks at [_pending_ship] or assigns it. *)
Lemma perform_pending_ship {X : Type} (e : Act X) (w : World) (r : Ref) (b : bool) :
  perform e (with_pending_ship w r b) =
  match perform e w with
  | Ok x w' ev => Ok x (with_pending_ship w' r b) ev
  | Wait => Wait
  | Raise ex => Raise ex
  end.
Proof.
  unfold with_pending_ship.
  destruct w as [[l1 b1 o1 c1 p1] [l2 b2 o2 c2 p2] q].
  destruct e as [self sval | self | self | self sval | self | self l | c
                | line to_stdout | self | self | ];
    try destruct self; destruct r; simpl;
    try reflexivity;
    try (destruct l1; reflexivity);
    try (destruct l2; reflexivity);
    try (destruct q; reflexivity).
Qed.

Lemma exec_pending_ship {A : Type} (p : Prog A) (w : World) (r : Ref) (b : bool) :
  exec p (with_pending_ship w r b) =
  mkRun (with_pending_ship (world (exec p w)) r b)
        (trace (exec p w)) (outcome (exec p w)).
Proof.
  revert w; induction p as [a | X e k IH]; intros w; simpl; [reflexivity |].
  rewrite perform_pending_ship.
  destruct (perform e w) as [x w' ev | | ex]; [| reflexivity | reflexivity].
  now rewrite IH.
Qed.

(** The fields set by [__init__] other than the lock and the buffer never
    change. *)
Lemma perform_keeps_fields {X : Type} (e : Act X) (w w' : World) (x : X) (ev : Event) :
  perform e w = Ok x w' ev ->
  forall r, _pending_ship (obj w' r) = _pending_ship (obj w r) /\
            _call (obj w' r) = _call (obj w r) /\
            _original (obj w' r) = _original (obj w r).
Proof.
  destruct w as [[l1 b1 o1 c1 p1] [l2 b2 o2 c2 p2] q].
  destruct e as [self sval | self | self | self sval | self | self l | c
                | line to_stdout | self | self | ];
    try destruct self; simpl;
    try destruct l1; try destruct l2; try destruct q;
    intros H r; inversion H; subst; destruct r; repeat split.
Qed.

Lemma exec_keeps_fields {A : Type} (p : Prog A) (w : World) (r : Ref) :
  _pending_ship (obj (world (exec p w)) r) = _pending_ship (obj w r) /\
  _call (obj (world (exec p w)) r) = _call (obj w r) /\
  _original (obj (world (exec p w)) r) = _original (obj w r).
Proof.
  revert w; induction p as [a | X e k IH]; intros w; simpl; [easy |].
  destruct (perform e w) as [x w' ev | | ex] eqn:Hp; [| easy | easy].
  simpl. destruct (IH x w') as (H1 & H2 & H3).
  destruct (perform_keeps_fields e w w' x ev Hp r) as (K1 & K2 & K3).
  repeat split; congruence.
Qed.

(** C9: from a state with the lock free, every [write] of a text that does
    not end with a newline hands exactly one new request to
    [_ba.pushcall], which joins the pending ones whatever they are, so also
    when the same request is already pending.  The field [_pending_ship]
    is [False] after [__init__]; no method assigns it, and no method reads
    it: run from a world that differs only in that field, every operation
    and [_shiplog] itself do the same and end in worlds that differ only in
    that field. *)
Theorem deferred_ships_not_deduplicated (self : Ref) (text : string) (w : World) :
  _lock (obj w self) = false ->
  endswith text newline = false ->
  let r := exec (write self text) w in
  let request := {| pc_self := self; from_other_thread := true;
                    suppress_other_thread_warning := true |} in
  pushcalls (trace r) = [request] /\
  pending (world r) = pending w ++ [request] /\
  count_occ_pushed request (pending (world r)) =
    S (count_occ_pushed request (pending w)) /\
  (forall original call, _pending_ship (__init__ original call) = false) /\
  (forall (o : Op) (s : Ref) (w' : World) (r' : Ref),
      _pending_ship (obj (world (exec (op_prog o) w')) r') =
      _pending_ship (obj w' r') /\
      _pending_ship (obj (world (exec (_shiplog s) w')) r') =
      _pending_ship (obj w' r')) /\
  (forall (o : Op) (s : Ref) (w' : World) (r' : Ref) (b : bool),
      exec (op_prog o) (with_pending_ship w' r' b) =
        mkRun (with_pending_ship (world (exec (op_prog o) w')) r' b)
              (trace (exec (op_prog o) w')) (outcome (exec (op_prog o) w')) /\
      exec (_shiplog s) (with_pending_ship w' r' b) =
        mkRun (with_pending_ship (world (exec (_shiplog s) w')) r' b)
              (trace (exec (_shiplog s) w')) (outcome (exec (_shiplog s) w'))).
Proof.
  intros Hl He. cbv zeta.
  destruct (write_ships_spec_partial self text w Hl He) as (Ht & Hp).
  rewrite Ht, Hp, pending_push_appended.
  split; [reflexivity |]. split; [reflexivity |].
  split; [apply count_occ_pushed_snoc |].
  split; [reflexivity |].
  split.
  - intros o s w' r'. split; apply exec_keeps_fields.
  - intros o s w' r' b. split; apply exec_pending_ship.
Qed.

Lemma deferred_ships_not_deduplicated_witness :
  let w0 := _ballistica_bootstrap (mkTextIO 1 true) (mkTextIO 2 true) in
  let w := world (exec (write sys_stdout "a") w0) in
  let r := exec (write sys_stdout "b") w in
  let request := {| pc_self := sys_stdout; from_other_thread := true;
                    suppress_other_thread_warning := true |} in
  _lock (obj w sys_stdout) = false /\
  endswith "b" newline = false /\
  pending w = [request] /\
  pushcalls (trace r) = [request] /\
  pending (world r) = pending w ++ [request] /\
  count_occ_pushed request (pending (world r)) =
    S (count_occ_pushed request (pending w)).
Proof.
  cbv zeta. split; [reflexivity |]. split; [reflexivity |].
  split; [reflexivity |].
  pose proof (deferred_ships_not_deduplicated sys_stdout "b"
    (world (exec (write sys_stdout "a")
                 (_ballistica_bootstrap (mkTextIO 1 true) (mkTextIO 2 true))))
    eq_refl eq_refl) as (H1 & H2 & H3 & _).
  repeat split; assumption.
Defined.

(** ** Properties of every action of a program *)

Lemma every_act_bind {A B : Type} (P : forall X, Act X -> Prop)
      (p : Prog A) (f : A -> Prog B) :
  every_act P p -> (forall a, every_act P (f a)) -> every_act P (bind p f).
Proof.
  induction p as [a | X e k IH]; simpl; intros Hp Hf; [apply Hf |].
  destruct Hp as [He Hk]. split; [exact He |].
  intros x. apply IH; [apply Hk | exact Hf].
Qed.

Lemma perform_quiet {X : Type} (e : Act X) (w w' : World) (x : X) (ev : Event) :
  log_quiet X e -> perform e w = Ok x w' ev -> event_quiet ev.
Proof.
  destruct e; simpl; intros Hq H;
    repeat match type of H with
           | context [if ?c then _ else _] => destruct c
           | context [match ?c with _ => _ end] => destruct c
           end;
    inversion H; subst; simpl; auto.
Qed.

Lemma exec_quiet {A : Type} (p : Prog A) (w : World) :
  every_act log_quiet p -> Forall event_quiet (trace (exec p w)).
Proof.
  revert w; induction p as [a | X e k IH]; intros w Hp; simpl;
    [constructor |].
  destruct Hp as [He Hk].
  destruct (perform e w) as [x w' ev | | ex] eqn:Hpf; simpl;
    [| constructor | constructor].
  constructor; [exact (perform_quiet e w w' x ev He Hpf) | apply IH, Hk].
Qed.

Lemma shiplog_quiet (self : Ref) : every_act log_quiet (_shiplog self).
Proof.
  unfold _shiplog. simpl. split; [exact I |]. intros _.
  split; [exact I |]. intros bits.
  destruct (truthy (join "" bits)); simpl; repeat split.
Qed.

Lemma op_quiet (o : Op) : every_act log_quiet (op_prog o).
Proof.
  destruct o as [self sval | self | self | ]; simpl.
  - repeat (split; [exact I |]; intros _).
    destruct (endswith sval newline); [apply shiplog_quiet | simpl; auto].
  - auto.
  - auto.
  - split; [exact I |]. intros [c |]; [apply shiplog_quiet | exact I].
Qed.

Lemma ops_quiet (l : list Op) : every_act log_quiet (ops_prog l).
Proof.
  induction l as [|o l IH]; simpl; [exact I |].
  apply every_act_bind; [apply op_quiet | intros _; exact IH].
Qed.

Lemma records_quiet (tr : list Event) :
  Forall event_quiet tr -> Forall (fun rec => snd rec = false) (records tr).
Proof.
  induction 1 as [|e tr He _ IH]; simpl; [constructor |].
  destruct e; simpl in *; try exact IH. now constructor.
Qed.

(** ** Operations from a state with no lock held *)

Ltac split_ifs :=
  repeat match goal with
         | |- context [if ?c then _ else _] => destruct c eqn:?; cbn
         end.

(** Every operation runs to its end, leaves no lock held, and echoes
    exactly what it was asked to write. *)
Lemma op_exec_lock_free (o : Op) (w : World) :
  lock_free w ->
  outcome (exec (op_prog o) w) = Done tt /\
  lock_free (world (exec (op_prog o) w)) /\
  echoes (trace (exec (op_prog o) w)) = echoes_of w [o].
Proof.
  intros H. pose proof (H sys_stdout) as H1. pose proof (H sys_stderr) as H2.
  destruct w as [[l1 b1 o1 c1 p1] [l2 b2 o2 c2 p2] q]. simpl in H1, H2. subst.
  unfold lock_free.
  destruct o as [self sval | self | self | ]; try destruct self; cbn.
  - split_ifs; repeat split; intros []; reflexivity.
  - split_ifs; repeat split; intros []; reflexivity.
  - repeat split; intros []; reflexivity.
  - repeat split; intros []; reflexivity.
  - repeat split; intros []; reflexivity.
  - repeat split; intros []; reflexivity.
  - destruct q as [|[[] f1 f2] q]; cbn; split_ifs;
      repeat split; intros []; reflexivity.
Qed.

Lemma echoes_of_ext (w w' : World) (l : list Op) :
  (forall r, _call (obj w r) = _call (obj w' r)) ->
  echoes_of w l = echoes_of w' l.
Proof.
  intros H. unfold echoes_of. apply flat_map_ext.
  intros [self sval | | | ]; try reflexivity. now rewrite H.
Qed.

Lemma echoes_of_cons (w : World) (o : Op) (l : list Op) :
  echoes_of w (o :: l) = echoes_of w [o] ++ echoes_of w l.
Proof. unfold echoes_of. simpl. now rewrite app_nil_r. Qed.

Lemma ops_exec_lock_free (l : list Op) (w : World) :
  lock_free w ->
  outcome (exec (ops_prog l) w) = Done tt /\
  lock_free (world (exec (ops_prog l) w)) /\
  echoes (trace (exec (ops_prog l) w)) = echoes_of w l.
Proof.
  revert w; induction l as [|o l IH]; intros w H; [easy |].
  destruct (op_exec_lock_free o w H) as (Ho & Hf & He).
  change (ops_prog (o :: l)) with (op_prog o ;; ops_prog l).
  rewrite (exec_bind_done _ _ w tt Ho). cbn [world trace outcome].
  destruct (IH _ Hf) as (Ho' & Hf' & He').
  split; [exact Ho' |]. split; [exact Hf' |].
  unfold echoes in *. rewrite flat_map_app, He, He'.
  rewrite (echoes_of_cons w o l).
  f_equal. apply echoes_of_ext. intros r. apply exec_keeps_fields.
Qed.

(** C10: in every run of any sequence of operations (writes, flushes,
    terminal checks on either instance and turns of the Scheduler), from
    any world, every record handed to [_ba.log] has [to_stdout=False].
    What reaches the console is what the echo callbacks receive: when no
    lock is held at the start, the run ends normally and the echo calls are
    exactly one per [write], with its text, in order. *)
Theorem log_records_not_echoed (l : list Op) (w : World) :
  Forall (fun rec => snd rec = false) (records (trace (exec (ops_prog l) w))) /\
  (lock_free w ->
     outcome (exec (ops_prog l) w) = Done tt /\
     echoes (trace (exec (ops_prog l) w)) = echoes_of w l).
Proof.
  split.
  - apply records_quiet, exec_quiet, ops_quiet.
  - intros H. destruct (ops_exec_lock_free l w H) as (Ho & _ & He). now split.
Qed.

(** ** The two instances do not interfere *)

Lemma Merge_app_left {A : Type} (p l1 l2 l : list A) :
  Merge l1 l2 l -> Merge (p ++ l1) l2 (p ++ l).
Proof. intros H. induction p; simpl; [exact H | now constructor]. Qed.

Lemma Merge_app_right {A : Type} (p l1 l2 l : list A) :
  Merge l1 l2 l -> Merge l1 (p ++ l2) (p ++ l).
Proof. intros H. induction p; simpl; [exact H | now constructor]. Qed.

(** What [write] does depends on its own instance only. *)
Lemma write_frame (self : Ref) (s : string) (w w' : World) :
  lock_free w -> lock_free w' -> obj w self = obj w' self ->
  trace (exec (write self s) w) = trace (exec (write self s) w') /\
  obj (world (exec (write self s) w)) self =
  obj (world (exec (write self s) w')) self.
Proof.
  intros H H' Ho.
  pose proof (H sys_stdout) as H1. pose proof (H sys_stderr) as H2.
  pose proof (H' sys_stdout) as H1'. pose proof (H' sys_stderr) as H2'.
  destruct w as [[l1 b1 o1 c1 p1] [l2 b2 o2 c2 p2] q].
  destruct w' as [[l1' b1' o1' c1' p1'] [l2' b2' o2' c2' p2'] q'].
  simpl in H1, H2, H1', H2'. subst.
  destruct self; simpl in Ho; inversion Ho; subst; cbn;
    split_ifs; split; reflexivity.
Qed.

(** [write] leaves the other instance alone. *)
Lemma write_other (self r : Ref) (s : string) (w : World) :
  lock_free w -> r <> self ->
  obj (world (exec (write self s) w)) r = obj w r.
Proof.
  intros H Hr.
  pose proof (H sys_stdout) as H1. pose proof (H sys_stderr) as H2.
  destruct w as [[l1 b1 o1 c1 p1] [l2 b2 o2 c2 p2] q].
  simpl in H1, H2. subst.
  destruct self, r; try congruence; cbn; split_ifs; reflexivity.
Qed.

Lemma writes_frame (self : Ref) (ws : list string) (w w' : World) :
  lock_free w -> lock_free w' -> obj w self = obj w' self ->
  trace (exec (writes self ws) w) = trace (exec (writes self ws) w').
Proof.
  revert w w'; induction ws as [|s ws IH]; intros w w' H H' Ho;
    [reflexivity |].
  rewrite writes_cons.
  destruct (op_exec_lock_free (OWrite self s) w H) as (Hd & Hf & _).
  destruct (op_exec_lock_free (OWrite self s) w' H') as (Hd' & Hf' & _).
  simpl op_prog in Hd, Hf, Hd', Hf'.
  rewrite (exec_bind_done _ _ w tt Hd), (exec_bind_done _ _ w' tt Hd').
  cbn [world trace outcome].
  destruct (write_frame self s w w' H H' Ho) as [Ht Hw].
  rewrite Ht. f_equal. now apply IH.
Qed.

Lemma texts_of_cons (self r : Ref) (s : string) (l : list (Ref * string)) :
  texts_of self ((r, s) :: l) =
  if Ref_eqb self r then s :: texts_of self l else texts_of self l.
Proof. unfold texts_of. simpl. now destruct (Ref_eqb self r). Qed.

Lemma records_app (a b : list Event) : records (a ++ b) = records a ++ records b.
Proof. apply flat_map_app. Qed.

(** In any interleaving of writes on the two instances the log receives the
    records each instance ships for its own writes, each in its order. *)
Lemma interleaved_merge (l : list (Ref * string)) (w : World) :
  lock_free w ->
  Merge (records (trace (exec (writes sys_stdout (texts_of sys_stdout l)) w)))
        (records (trace (exec (writes sys_stderr (texts_of sys_stderr l)) w)))
        (records (trace (exec (interleaved l) w))).
Proof.
  revert w; induction l as [|[self s] l IH]; intros w H; [constructor |].
  change (interleaved ((self, s) :: l)) with (write self s ;; interleaved l).
  destruct (op_exec_lock_free (OWrite self s) w H) as (Hd & Hf & _).
  simpl op_prog in Hd, Hf.
  rewrite (exec_bind_done _ _ w tt Hd). cbn [world trace outcome].
  rewrite records_app, !texts_of_cons.
  specialize (IH _ Hf).
  set (w1 := world (exec (write self s) w)) in *.
  destruct self; simpl Ref_eqb; cbv iota.
  - rewrite writes_cons, (exec_bind_done _ _ w tt Hd).
    cbn [world trace outcome]. fold w1. rewrite records_app.
    rewrite (writes_frame sys_stderr _ w w1 H Hf)
      by (symmetry; apply write_other; [exact H | discriminate]).
    now apply Merge_app_left.
  - rewrite writes_cons, (exec_bind_done _ _ w tt Hd).
    cbn [world trace outcome]. fold w1. rewrite records_app.
    rewrite (writes_frame sys_stdout _ w w1 H Hf)
      by (symmetry; apply write_other; [exact H | discriminate]).
    now apply Merge_app_right.
Qed.

Lemma bootstrap_lock_free (old_stdout old_stderr : TextIO) :
  lock_free (_ballistica_bootstrap old_stdout old_stderr).
Proof. intros []; reflexivity. Qed.

(** C2, as the claim states it, fails: [_ba.log] is given the line and
    [to_stdout=False] and nothing else.  Writing the same text to
    [sys.stdout] and to [sys.stderr] ships the same record, so nothing
    read off a record can tell which instance shipped it. *)
Lemma shipped_records_carry_no_tag :
  let w := _ballistica_bootstrap (mkTextIO 1 true) (mkTextIO 2 true) in
  let text := ("x" ++ newline)%string in
  records (trace (exec (write sys_stdout text) w)) = [("x"%string, false)] /\
  records (trace (exec (write sys_stderr text) w)) = [("x"%string, false)] /\
  ~ exists tag : string * bool -> Ref,
      forall self rec,
        In rec (records (trace (exec (write self text) w))) -> tag rec = self.
Proof.
  cbv zeta. split; [reflexivity |]. split; [reflexivity |].
  intros [tag H].
  pose proof (H sys_stdout ("x"%string, false) (or_introl eq_refl)) as H1.
  pose proof (H sys_stderr ("x"%string, false) (or_introl eq_refl)) as H2.
  congruence.
Qed.

(** C2, amended: a record handed to [_ba.log] consists of the line and
    [to_stdout=False]; it carries no destination tag and is the same
    whichever instance ships a given buffer.  The instance shows on the
    echo path only: after the bootstrap, for every interleaving of writes
    across the two instances, each write on [sys.stdout] is echoed through
    [_ba.print_stdout] and each write on [sys.stderr] through
    [_ba.print_stderr]; and the records logged are those each instance
    ships for the texts written to it alone, merged in some order that
    keeps the order of each instance. *)
Theorem records_untagged_echo_tagged
        (l : list (Ref * string)) (old_stdout old_stderr : TextIO) :
  let w := _ballistica_bootstrap old_stdout old_stderr in
  let run := exec (interleaved l) w in
  outcome run = Done tt /\
  echoes (trace run) = map (fun p => (callback_of (fst p), snd p)) l /\
  Merge (records (trace (exec (writes sys_stdout (texts_of sys_stdout l)) w)))
        (records (trace (exec (writes sys_stderr (texts_of sys_stderr l)) w)))
        (records (trace run)) /\
  Forall (fun rec => snd rec = false) (records (trace run)) /\
  (forall (w1 w2 : World) (s1 s2 : Ref),
      _lock (obj w1 s1) = false -> _lock (obj w2 s2) = false ->
      _linebits (obj w1 s1) = _linebits (obj w2 s2) ->
      records (trace (exec (_shiplog s1) w1)) =
      records (trace (exec (_shiplog s2) w2))).
Proof.
  cbv zeta.
  pose proof (bootstrap_lock_free old_stdout old_stderr) as Hf.
  unfold interleaved.
  destruct (ops_exec_lock_free (map (fun p => OWrite (fst p) (snd p)) l) _ Hf)
    as (Hd & _ & He).
  split; [exact Hd |]. split; [| split; [| split]].
  - rewrite He. clear. induction l as [|[[] s] l IH]; [reflexivity | |];
      unfold echoes_of in *; simpl; now rewrite IH.
  - now apply interleaved_merge.
  - apply records_quiet, exec_quiet, ops_quiet.
  - intros w1 w2 s1 s2 H1 H2 Hb.
    rewrite (shiplog_records s1 w1 H1), (shiplog_records s2 w2 H2).
    now rewrite Hb.
Qed.

(** Scenario D of the spec, on a concrete interleaving. *)
Example scenario_D :
  let w := _ballistica_bootstrap (mkTextIO 1 true) (mkTextIO 2 true) in
  let r := exec (interleaved [(sys_stdout, "out"%string);
                              (sys_stderr, "err"%string);
                              (sys_stderr, newline);
                              (sys_stdout, newline)]) w in
  records (trace r) = [("err"%string, false); ("out"%string, false)] /\
  echoes (trace r) = [(print_stdout, "out"%string); (print_stderr, "err"%string);
                      (print_stderr, newline); (print_stdout, newline)].
Proof. split; reflexivity. Qed.

(** ** Sequences of operations on one thread: further properties *)

(** X5: a thread that runs any sequence of operations (writes, flushes,
    terminal checks, turns of the Scheduler), starting with no lock held,
    never waits for a lock it cannot get and never releases a lock that is
    not held: the run ends normally, and no lock is held at the end. *)
Theorem ops_run_to_completion (l : list Op) (w : World) :
  lock_free w ->
  outcome (exec (ops_prog l) w) = Done tt /\
  lock_free (world (exec (ops_prog l) w)).
Proof.
  intros H. destruct (ops_exec_lock_free l w H) as (Ho & Hf & _). now split.
Qed.

Lemma ops_run_to_completion_witness :
  let w := _ballistica_bootstrap (mkTextIO 1 true) (mkTextIO 2 true) in
  let l := [OWrite sys_stdout "a"; OFire; OWrite sys_stderr newline;
            OFlush sys_stdout; OFire; OIsatty sys_stderr] in
  lock_free w /\
  outcome (exec (ops_prog l) w) = Done tt /\
  lock_free (world (exec (ops_prog l) w)).
Proof.
  cbv zeta. split; [apply bootstrap_lock_free |].
  apply ops_run_to_completion, bootstrap_lock_free.
Defined.

Lemma ops_cons_exec (o : Op) (l : list Op) (w : World) :
  lock_free w ->
  exec (ops_prog (o :: l)) w =
  mkRun (world (exec (ops_prog l) (world (exec (op_prog o) w))))
        (trace (exec (op_prog o) w) ++
         trace (exec (ops_prog l) (world (exec (op_prog o) w))))
        (outcome (exec (ops_prog l) (world (exec (op_prog o) w)))).
Proof.
  intros H. destruct (op_exec_lock_free o w H) as (Ho & _ & _).
  change (ops_prog (o :: l)) with (op_prog o ;; ops_prog l).
  now rewrite (exec_bind_done _ _ w tt Ho).
Qed.

(** What a [flush] or [isatty] does in a sequence. *)
Lemma query_exec (o : Op) (w : World) :
  is_query o = true ->
  world (exec (op_prog o) w) = w /\
  filter (fun e => negb (is_query_event e)) (trace (exec (op_prog o) w)) = [].
Proof. destruct o; try discriminate; intros _; now split. Qed.

Lemma not_query_trace (o : Op) (w : World) :
  lock_free w ->
  is_query o = false ->
  filter (fun e => negb (is_query_event e)) (trace (exec (op_prog o) w)) =
  trace (exec (op_prog o) w).
Proof.
  intros H Hq. pose proof (H sys_stdout) as H1. pose proof (H sys_stderr) as H2.
  destruct w as [[l1 b1 o1 c1 p1] [l2 b2 o2 c2 p2] q]. simpl in H1, H2. subst.
  destruct o as [self sval | self | self | ]; try discriminate;
    try destruct self; cbn.
  - split_ifs; reflexivity.
  - split_ifs; reflexivity.
  - destruct q as [|[[] f1 f2] q]; cbn; split_ifs; reflexivity.
Qed.

(** X4: in a sequence of operations run from a state with no lock held,
    the [flush] and [isatty] calls can be left out without changing
    anything but their own calls to the wrapped streams: the final world,
    the outcome and every other action of the trace are the same. *)
Theorem queries_are_transparent (l : list Op) (w : World) :
  lock_free w ->
  let r := exec (ops_prog l) w in
  let r' := exec (ops_prog (filter (fun o => negb (is_query o)) l)) w in
  world r = world r' /\
  outcome r = outcome r' /\
  filter (fun e => negb (is_query_event e)) (trace r) = trace r'.
Proof.
  cbv zeta. revert w; induction l as [|o l IH]; intros w H; [easy |].
  rewrite (ops_cons_exec o l w H). cbn [world trace outcome].
  destruct (op_exec_lock_free o w H) as (_ & Hf & _).
  destruct (IH _ Hf) as (IH1 & IH2 & IH3).
  rewrite filter_app, IH3.
  simpl filter. destruct (is_query o) eqn:Hq; simpl negb; cbv iota.
  - destruct (query_exec o w Hq) as [Hw Ht]. rewrite Ht, Hw in *.
    now rewrite IH1, IH2.
  - rewrite (ops_cons_exec o _ w H). cbn [world trace outcome].
    rewrite (not_query_trace o w H Hq). now rewrite IH1, IH2.
Qed.

Lemma queries_are_transparent_witness :
  let w := _ballistica_bootstrap (mkTextIO 1 true) (mkTextIO 2 true) in
  let l := [OWrite sys_stdout "a"; OFlush sys_stdout; OIsatty sys_stderr;
            OWrite sys_stdout newline] in
  lock_free w /\
  world (exec (ops_prog l) w) =
    world (exec (ops_prog [OWrite sys_stdout "a"; OWrite sys_stdout newline]) w) /\
  records (trace (exec (ops_prog l) w)) = [("a"%string, false)].
Proof.
  cbv zeta. split; [apply bootstrap_lock_free |].
  split; [| reflexivity].
  exact (proj1 (queries_are_transparent
    [OWrite sys_stdout "a"; OFlush sys_stdout; OIsatty sys_stderr;
     OWrite sys_stdout newline]
    (_ballistica_bootstrap (mkTextIO 1 true) (mkTextIO 2 true))
    (bootstrap_lock_free _ _))).
Defined.

Lemma join_nil : join "" [] = ""%string.
Proof. reflexivity. Qed.

Lemma join_single (x : string) : join "" [x] = x.
Proof. reflexivity. Qed.

Lemma read_text_app (self : Ref) (a b : list Event) :
  read_text self (a ++ b) = (read_text self a ++ read_text self b)%string.
Proof. unfold read_text. now rewrite flat_map_app, join_app. Qed.

Lemma written_text_cons (self : Ref) (o : Op) (l : list Op) :
  written_text self (o :: l) =
  (written_text self [o] ++ written_text self l)%string.
Proof.
  unfold written_text. simpl flat_map. now rewrite app_nil_r, join_app.
Qed.

Ltac split_truthy :=
  repeat match goal with
         | |- context [truthy ?x] => destruct (truthy x) eqn:?; cbn
         | |- context [if ?c then _ else _] => destruct c eqn:?; cbn
         end.

Ltac tidy_joins :=
  repeat match goal with
         | H : truthy _ = false |- _ => apply truthy_false_iff in H
         end;
  rewrite ?join_snoc in *;
  rewrite ?join_single, ?join_nil, ?append_nil_r in *.

(** One operation loses and invents no text, and logs what it read. *)
Lemma op_conserves (o : Op) (w : World) (self : Ref) :
  lock_free w ->
  (join "" (_linebits (obj w self)) ++ written_text self [o])%string =
  (read_text self (trace (exec (op_prog o) w)) ++
   join "" (_linebits (obj (world (exec (op_prog o) w)) self)))%string /\
  records (trace (exec (op_prog o) w)) =
  records_of_reads (trace (exec (op_prog o) w)).
Proof.
  intros H. pose proof (H sys_stdout) as H1. pose proof (H sys_stderr) as H2.
  destruct w as [[l1 b1 o1 c1 p1] [l2 b2 o2 c2 p2] q]. simpl in H1, H2. subst.
  unfold read_text, written_text, records_of_reads.
  destruct o as [r sval | r | r | ]; try destruct r; destruct self; cbn;
    try (destruct q as [|[[] f1 f2] q]; cbn);
    split_truthy; tidy_joins;
    (split;
     [ try reflexivity;
       try match goal with
           | H : (_ ++ _)%string = ""%string |- _ => now rewrite H
           | H : join "" _ = ""%string |- _ => now rewrite H
           end
     | unfold logged_line;
       repeat match goal with
              | H : endswith _ _ = _ |- _ => rewrite H; clear H
              end;
       reflexivity ]).
Qed.

(** X6: no text is lost and none is invented.  For any sequence of
    operations run from a state with no lock held, and for each instance,
    the text its buffer held at the start followed by the text written to
    it equals the text its [_shiplog] runs read followed by the text its
    buffer holds at the end.  And the records logged are exactly one for
    each read that found text: the text read, less one final newline. *)
Theorem text_is_conserved (l : list Op) (w : World) (self : Ref) :
  lock_free w ->
  let r := exec (ops_prog l) w in
  (join "" (_linebits (obj w self)) ++ written_text self l)%string =
  (read_text self (trace r) ++ join "" (_linebits (obj (world r) self)))%string /\
  records (trace r) = records_of_reads (trace r).
Proof.
  cbv zeta. revert w; induction l as [|o l IH]; intros w H.
  - unfold written_text, read_text. simpl. rewrite join_nil.
    now rewrite append_nil_r.
  - rewrite (ops_cons_exec o l w H). cbn [world trace outcome].
    destruct (op_exec_lock_free o w H) as (_ & Hf & _).
    destruct (op_conserves o w self H) as [Ho Hr].
    destruct (IH _ Hf) as [IH1 IH2].
    split.
    + rewrite written_text_cons, read_text_app.
      rewrite <- append_assoc, Ho, append_assoc, IH1.
      now rewrite append_assoc.
    + unfold records_of_reads in *. rewrite records_app, flat_map_app.
      now rewrite Hr, IH2.
Qed.

Lemma text_is_conserved_witness :
  let w := _ballistica_bootstrap (mkTextIO 1 true) (mkTextIO 2 true) in
  let l := [OWrite sys_stdout "a"; OWrite sys_stderr "e"; OFire;
            OWrite sys_stdout ("b" ++ newline); OWrite sys_stdout "c"] in
  let r := exec (ops_prog l) w in
  lock_free w /\
  written_text sys_stdout l = ("a" ++ "b" ++ newline ++ "c")%string /\
  read_text sys_stdout (trace r) = ("a" ++ "b" ++ newline)%string /\
  _linebits (obj (world r) sys_stdout) = ["c"%string] /\
  (join "" (_linebits (obj w sys_stdout)) ++ written_text sys_stdout l)%string =
  (read_text sys_stdout (trace r) ++
   join "" (_linebits (obj (world r) sys_stdout)))%string.
Proof.
  cbv zeta. split; [apply bootstrap_lock_free |].
  split; [reflexivity |]. split; [reflexivity |]. split; [reflexivity |].
  exact (proj1 (text_is_conserved
    [OWrite sys_stdout "a"; OWrite sys_stderr "e"; OFire;
     OWrite sys_stdout ("b" ++ newline); OWrite sys_stdout "c"]
    (_ballistica_bootstrap (mkTextIO 1 true) (mkTextIO 2 true))
    sys_stdout (bootstrap_lock_free _ _))).
Defined.

Lemma drained_lock_free (w : World) (self : Ref) :
  lock_free w -> lock_free (drained w self).
Proof.
  intros H r. unfold drained. rewrite lock_set_obj_bits. apply H.
Qed.

Lemma drained_text_free (w : World) (self : Ref) :
  (forall r, join "" (_linebits (obj w r)) = ""%string) ->
  forall r, join "" (_linebits (obj (drained w self) r)) = ""%string.
Proof.
  intros H r. unfold drained.
  destruct self, r; simpl;
    first [reflexivity | apply (H sys_stdout) | apply (H sys_stderr)].
Qed.

Lemma slice_newline_back (s : string) :
  endswith s newline = true -> (slice_to s (-1) ++ newline)%string = s.
Proof.
  intros He. apply endswith_newline_iff in He as [t ->].
  unfold newline. now rewrite slice_to_snoc.
Qed.

(** X1: complete lines map to records one to one.  From a state with no
    lock held and no text in the buffers, let texts that all end with a
    newline be written to the two instances in any order.  Then the log
    receives exactly one record per write, in the order of the writes,
    each being its text less the final newline (inner newlines are kept);
    nothing is handed to the Scheduler and the buffers hold no text
    afterwards. *)
Theorem complete_lines_one_record_each (l : list (Ref * string)) (w : World) :
  lock_free w ->
  (forall r, join "" (_linebits (obj w r)) = ""%string) ->
  Forall (fun p => endswith (snd p) newline = true) l ->
  let r := exec (interleaved l) w in
  outcome r = Done tt /\
  records (trace r) = map (fun p => (slice_to (snd p) (-1), false)) l /\
  map (fun rec => (fst rec ++ newline)%string) (records (trace r)) = map snd l /\
  pushcalls (trace r) = [] /\
  pending (world r) = pending w /\
  (forall r', join "" (_linebits (obj (world r) r')) = ""%string).
Proof.
  cbv zeta. revert w; induction l as [|[self s] l IH]; intros w Hf Hj Hl.
  - repeat split; try reflexivity. exact Hj.
  - inversion Hl as [|? ? He Hl']; subst. simpl in He.
    change (interleaved ((self, s) :: l)) with (write self s ;; interleaved l).
    pose proof (write_newline_exec self s w (Hf self) He) as Hw.
    rewrite (exec_bind_done _ _ w tt) by (now rewrite Hw).
    rewrite Hw. cbn [world trace outcome].
    destruct (IH (drained w self) (drained_lock_free w self Hf)
                 (drained_text_free w self Hj) Hl')
      as (I1 & I2 & I3 & I4 & I5 & I6).
    assert (Hline : logged_line (join "" (_linebits (obj w self) ++ [s])) =
                    slice_to s (-1)).
    { rewrite join_snoc, (Hj self). simpl append.
      unfold logged_line. now rewrite He. }
    split; [exact I1 |].
    split; [simpl; now rewrite Hline, I2 |].
    split; [simpl; now rewrite Hline, (slice_newline_back s He), I3 |].
    split; [simpl; exact I4 |].
    split; [| exact I6].
    rewrite I5. unfold drained. apply pending_set_obj.
Qed.

Lemma complete_lines_one_record_each_witness :
  let w := _ballistica_bootstrap (mkTextIO 1 true) (mkTextIO 2 true) in
  let l := [(sys_stdout, ("one" ++ newline)%string);
            (sys_stderr, ("two" ++ newline ++ "lines" ++ newline)%string);
            (sys_stdout, newline)] in
  lock_free w /\
  (forall r, join "" (_linebits (obj w r)) = ""%string) /\
  Forall (fun p => endswith (snd p) newline = true) l /\
  records (trace (exec (interleaved l) w)) =
    [("one"%string, false); (("two" ++ newline ++ "lines")%string, false);
     (""%string, false)].
Proof.
  cbv zeta.
  assert (H1 : lock_free (_ballistica_bootstrap (mkTextIO 1 true) (mkTextIO 2 true)))
    by apply bootstrap_lock_free.
  assert (H2 : forall r, join "" (_linebits
             (obj (_ballistica_bootstrap (mkTextIO 1 true) (mkTextIO 2 true)) r)) =
             ""%string) by (intros []; reflexivity).
  assert (H3 : Forall (fun p : Ref * string => endswith (snd p) newline = true)
                 [(sys_stdout, ("one" ++ newline)%string);
                  (sys_stderr, ("two" ++ newline ++ "lines" ++ newline)%string);
                  (sys_stdout, newline)])
    by (repeat constructor).
  split; [exact H1 |]. split; [exact H2 |]. split; [exact H3 |].
  exact (proj1 (proj2 (complete_lines_one_record_each _ _ H1 H2 H3))).
Defined.

Lemma endswith_append (a b : string) :
  endswith (a ++ b) newline =
  if truthy b then endswith b newline else endswith a newline.
Proof.
  destruct (string_snoc_cases b) as [-> | (t & c & ->)].
  - now rewrite append_nil_r.
  - rewrite <- append_assoc, !endswith_snoc. now destruct t.
Qed.

Lemma join_no_newline (ws : list string) :
  Forall (fun s => endswith s newline = false) ws ->
  endswith (join "" ws) newline = false.
Proof.
  induction 1 as [|s ws Hs _ IH]; [reflexivity |].
  rewrite join_cons, endswith_append, IH, Hs. now destruct (truthy _).
Qed.

(** [_shiplog] on a buffer without text, any number of times. *)
Lemma ship_times_quiet (self : Ref) (k : nat) (w : World) :
  _lock (obj w self) = false ->
  join "" (_linebits (obj w self)) = ""%string ->
  world (exec (ship_times self k) w) = w /\
  outcome (exec (ship_times self k) w) = Done tt /\
  records (trace (exec (ship_times self k) w)) = [] /\
  ships (trace (exec (ship_times self k) w)) = k.
Proof.
  intros Hl Hj. induction k as [|k (I1 & I2 & I3 & I4)]; [easy |].
  change (ship_times self (S k)) with (_shiplog self ;; ship_times self k).
  pose proof (shiplog_exec self w Hl) as Hs. cbv zeta in Hs.
  apply truthy_false_iff in Hj. rewrite Hj in Hs.
  rewrite (exec_bind_done _ _ w tt) by (now rewrite Hs).
  rewrite Hs. cbn [world trace outcome].
  split; [exact I1 |]. split; [exact I2 |].
  split; [unfold records in *; rewrite flat_map_app, I3; reflexivity |].
  unfold ships in *. rewrite flat_map_app, length_app, I4. reflexivity.
Qed.

(** X2: text that never gets its newline is shipped by the first
    [_shiplog] that runs afterwards, as it is, and only once.  On an
    instance with the lock free and no text in its buffer, after writes of
    texts that do not end with a newline, [k+1] runs of [_shiplog] in a row
    (as the requests handed to the Scheduler cause) log one record, the
    concatenation of the texts with nothing removed, or no record when all
    the texts are empty; the runs after the first log nothing. *)
Theorem partial_writes_shipped_once
        (self : Ref) (ws : list string) (k : nat) (w : World) :
  _lock (obj w self) = false ->
  join "" (_linebits (obj w self)) = ""%string ->
  Forall (fun s => endswith s newline = false) ws ->
  let r := exec (writes self ws ;; ship_times self (S k)) w in
  outcome r = Done tt /\
  ships (trace r) = S k /\
  records (trace r) =
    (if truthy (join "" ws) then [(join "" ws, false)] else []) /\
  join "" (_linebits (obj (world r) self)) = ""%string /\
  pending (world r) = pending w ++ map (fun _ => deferred_ship self) ws.
Proof.
  intros Hl Hj Hws. cbv zeta.
  pose proof (writes_partial_exec self ws w Hl Hws) as Hp.
  rewrite (exec_bind_done _ _ w tt) by (now rewrite Hp).
  rewrite Hp. cbn [world trace outcome].
  set (w1 := buffered w self ws).
  assert (Hl1 : _lock (obj w1 self) = false)
    by (unfold w1; now rewrite buffered_lock).
  assert (Hb1 : join "" (_linebits (obj w1 self)) = join "" ws).
  { unfold w1. now rewrite buffered_bits, join_app, Hj. }
  change (ship_times self (S k)) with (_shiplog self ;; ship_times self k).
  destruct (shiplog_done self w1 Hl1) as [Hd Hl2].
  pose proof (shiplog_leaves_no_text self w1 Hl1) as Hj2.
  pose proof (shiplog_records self w1 Hl1) as Hr.
  rewrite (exec_bind_done _ _ w1 tt Hd). cbn [world trace outcome].
  set (w2 := world (exec (_shiplog self) w1)) in *.
  destruct (ship_times_quiet self k w2 Hl2 Hj2) as (K1 & K2 & K3 & K4).
  destruct (partial_trace_quiet (_call (obj w self)) self ws)
    as (P1 & P2 & _).
  rewrite K1.
  split; [exact K2 |].
  split.
  { unfold ships in *. rewrite !flat_map_app, !length_app, P1, K4.
    rewrite (shiplog_trace self w1 Hl1). cbv zeta.
    now destruct (truthy _). }
  split.
  { rewrite !records_app, P2, K3, Hr, Hb1, app_nil_r. simpl.
    now rewrite (logged_line_other _ (join_no_newline ws Hws)). }
  split; [exact Hj2 |].
  unfold w2. rewrite (shiplog_exec self w1 Hl1). cbv zeta.
  destruct (truthy _); simpl; unfold drained;
    rewrite ?pending_set_obj; reflexivity.
Qed.

Lemma partial_writes_shipped_once_witness :
  let w := _ballistica_bootstrap (mkTextIO 1 true) (mkTextIO 2 true) in
  let r := exec (writes sys_stderr ["par"%string; ""%string; "tial"%string] ;;
                 ship_times sys_stderr 3) w in
  _lock (obj w sys_stderr) = false /\
  join "" (_linebits (obj w sys_stderr)) = ""%string /\
  Forall (fun s => endswith s newline = false)
         ["par"%string; ""%string; "tial"%string] /\
  ships (trace r) = 3 /\
  records (trace r) = [("partial"%string, false)].
Proof.
  cbv zeta.
  assert (H : Forall (fun s => endswith s newline = false)
                ["par"%string; ""%string; "tial"%string])
    by (repeat constructor).
  split; [reflexivity |]. split; [reflexivity |]. split; [exact H |].
  pose proof (partial_writes_shipped_once sys_stderr
    ["par"%string; ""%string; "tial"%string] 2
    (_ballistica_bootstrap (mkTextIO 1 true) (mkTextIO 2 true))
    eq_refl eq_refl H) as (_ & Hs & Hr & _).
  split; [exact Hs | exact Hr].
Defined.

(** The whole run of writes of which only the last ends with a newline. *)
Lemma writes_then_newline_exec
      (self : Ref) (ws : list string) (wn : string) (w : World) :
  _lock (obj w self) = false ->
  Forall (fun s => endswith s newline = false) ws ->
  endswith wn newline = true ->
  exec (writes self (ws ++ [wn])) w =
  mkRun (drained (buffered w self ws) self)
        (partial_trace (_call (obj w self)) self ws ++
         [EEcho (_call (obj w self)) wn; EAcquire self; EAppend self wn;
          ERelease self; EAcquire self;
          EGetBits self ((_linebits (obj w self) ++ ws) ++ [wn]);
          ESetBits self []; ERelease self;
          ELog (logged_line (join "" ((_linebits (obj w self) ++ ws) ++ [wn])))
               false])
        (Done tt).
Proof.
  intros Hl Hws He.
  unfold writes. rewrite map_app, exec_ops_app.
  pose proof (writes_partial_exec self ws w Hl Hws) as Hp. unfold writes in Hp.
  rewrite (exec_bind_done _ _ w tt) by (now rewrite Hp).
  rewrite Hp. cbn [world trace outcome].
  change (ops_prog (map (OWrite self) [wn])) with (write self wn ;; Ret tt).
  assert (Hlb : _lock (obj (buffered w self ws) self) = false)
    by (now rewrite buffered_lock).
  pose proof (write_newline_exec self wn (buffered w self ws) Hlb He) as Hw.
  rewrite (exec_bind_done _ _ (buffered w self ws) tt) by (now rewrite Hw).
  rewrite Hw. cbn [world trace outcome exec app].
  now rewrite buffered_bits, buffered_call.
Qed.

Lemma print_pieces_join (args : list string) :
  join "" (print_pieces args) = String.concat " " args.
Proof.
  induction args as [|a args IH]; [reflexivity |].
  destruct args as [|b args]; [reflexivity |].
  change (print_pieces (a :: b :: args))
    with (a :: " "%string :: print_pieces (b :: args)).
  rewrite !join_cons, IH. reflexivity.
Qed.

Lemma print_pieces_no_newline (args : list string) :
  Forall (fun s => endswith s newline = false) args ->
  Forall (fun s => endswith s newline = false) (print_pieces args).
Proof.
  induction 1 as [|a args Ha Hargs IH]; [constructor |].
  destruct args as [|b args]; [now constructor |].
  change (print_pieces (a :: b :: args))
    with (a :: " "%string :: print_pieces (b :: args)).
  constructor; [exact Ha |]. constructor; [reflexivity | exact IH].
Qed.

(** X3: one [print] is one log entry.  With the lock of [sys.stdout] free
    and no text in its buffer, [print(a1, ..., an)] whose arguments do not
    end with a newline logs exactly one record, the arguments joined by
    single spaces (the empty string for [print()]), in one run of
    [_shiplog]; every piece is echoed as it is written, the buffer is
    empty afterwards, and one request per piece stays with the
    Scheduler. *)
Theorem print_logs_one_record (args : list string) (w : World) :
  _lock (obj w sys_stdout) = false ->
  join "" (_linebits (obj w sys_stdout)) = ""%string ->
  Forall (fun s => endswith s newline = false) args ->
  let r := exec (print args) w in
  outcome r = Done tt /\
  ships (trace r) = 1 /\
  records (trace r) = [(String.concat " " args, false)] /\
  echoes (trace r) =
    map (fun s => (_call (obj w sys_stdout), s)) (print_pieces args ++ [newline]) /\
  _linebits (obj (world r) sys_stdout) = [] /\
  pending (world r) =
    pending w ++ map (fun _ => deferred_ship sys_stdout) (print_pieces args).
Proof.
  intros Hl Hj Hargs. cbv zeta. unfold print.
  assert (He : endswith newline newline = true) by reflexivity.
  rewrite (writes_then_newline_exec sys_stdout (print_pieces args) newline w
             Hl (print_pieces_no_newline args Hargs) He).
  cbn [world trace outcome].
  destruct (partial_trace_quiet (_call (obj w sys_stdout)) sys_stdout
                                (print_pieces args)) as (P1 & P2 & _).
  split; [reflexivity |].
  split.
  { unfold ships in *. rewrite flat_map_app, length_app, P1. reflexivity. }
  split.
  { rewrite records_app, P2. unfold records. cbn [flat_map app].
    rewrite join_snoc, join_app, Hj. cbn [append].
    now rewrite logged_line_newline, print_pieces_join. }
  split.
  { unfold echoes, partial_trace. rewrite flat_map_app, map_app. simpl.
    f_equal. generalize (print_pieces args). intros ps.
    induction ps as [|s ps IH]; [reflexivity |]. simpl. now rewrite IH. }
  split; [apply drained_bits |].
  unfold drained. now rewrite pending_set_obj, buffered_pending.
Qed.

Lemma print_logs_one_record_witness :
  let w := _ballistica_bootstrap (mkTextIO 1 true) (mkTextIO 2 true) in
  let args := ["foo"%string; "123"%string; "bar"%string] in
  _lock (obj w sys_stdout) = false /\
  join "" (_linebits (obj w sys_stdout)) = ""%string /\
  Forall (fun s => endswith s newline = false) args /\
  records (trace (exec (print args) w)) = [("foo 123 bar"%string, false)] /\
  records (trace (exec (print []) w)) = [(""%string, false)].
Proof.
  cbv zeta.
  assert (H : Forall (fun s => endswith s newline = false)
                ["foo"%string; "123"%string; "bar"%string])
    by (repeat constructor).
  split; [reflexivity |]. split; [reflexivity |]. split; [exact H |].
  split.
  - exact (proj1 (proj2 (proj2 (print_logs_one_record
      ["foo"%string; "123"%string; "bar"%string]
      (_ballistica_bootstrap (mkTextIO 1 true) (mkTextIO 2 true))
      eq_refl eq_refl H)))).
  - exact (proj1 (proj2 (proj2 (print_logs_one_record []
      (_ballistica_bootstrap (mkTextIO 1 true) (mkTextIO 2 true))
      eq_refl eq_refl (Forall_nil _))))).
Defined.

(** ** Threads: no deadlock *)

Lemma no_nested_locks_ext {A : Type} (p : Prog A) (h h' : Ref -> bool) :
  (forall r, h r = h' r) -> no_nested_locks p h -> no_nested_locks p h'.
Proof.
  revert h h'; induction p as [a | X e k IH]; intros h h' Hh; simpl;
    [easy |].
  intros [Hg Hk]. split.
  - destruct e; try exact I. intros r. rewrite <- Hh. apply Hg.
  - intros x. apply (IH x (after_act e h)); [| apply Hk].
    intros r. destruct e; simpl; try apply Hh; now rewrite Hh.
Qed.

Lemma no_nested_locks_bind {A B : Type} (p : Prog A) (f : A -> Prog B)
      (h : Ref -> bool) :
  well_locked p h ->
  no_nested_locks p h ->
  (forall a, no_nested_locks (f a) (fun _ => false)) ->
  no_nested_locks (bind p f) h.
Proof.
  revert h; induction p as [a | X e k IH]; intros h Hw Hp Hf; simpl in *.
  - apply (no_nested_locks_ext (f a) (fun _ => false)); [| apply Hf].
    intros r. now rewrite Hw.
  - destruct Hw as [_ Hwk]. destruct Hp as [Hg Hk]. split; [exact Hg |].
    intros x. apply IH; [apply Hwk | apply Hk | exact Hf].
Qed.

Lemma shiplog_no_nested_locks (self : Ref) :
  no_nested_locks (_shiplog self) (fun _ => false).
Proof.
  unfold _shiplog. simpl. split; [reflexivity |]. intros _.
  split; [exact I |]. intros bits.
  destruct (truthy (join "" bits)); simpl; repeat split.
Qed.

Lemma op_no_nested_locks (o : Op) :
  no_nested_locks (op_prog o) (fun _ => false).
Proof.
  destruct o as [self sval | self | self | ].
  - simpl. split; [exact I |]. intros _.
    split; [reflexivity |]. intros _.
    split; [exact I |]. intros _.
    split; [exact I |]. intros _.
    destruct (endswith sval newline).
    + apply (no_nested_locks_ext _ (fun _ => false));
        [| apply shiplog_no_nested_locks].
      intros r. simpl. now destruct (Ref_eqb r self).
    + simpl. auto.
  - simpl. auto.
  - simpl. auto.
  - simpl. split; [exact I |]. intros [c |]; simpl;
      [apply shiplog_no_nested_locks | exact I].
Qed.

Lemma ops_no_nested_locks (l : list Op) :
  no_nested_locks (ops_prog l) (fun _ => false).
Proof.
  induction l as [|o l IH]; simpl; [exact I |].
  apply no_nested_locks_bind;
    [apply op_well_locked | apply op_no_nested_locks | intros _; exact IH].
Qed.

Lemma length_set_nth {A : Type} (i : nat) (x : A) (l : list A) :
  List.length (set_nth i x l) = List.length l.
Proof.
  revert i; induction l as [|a l IH]; intros [|i]; simpl; auto.
Qed.

Lemma next_owners_cases (own : Owners) (i j : nat) (e : Event) (r : Ref) :
  next_owners own i e r = Some j -> j = i \/ own r = Some j.
Proof.
  destruct e; simpl; auto; unfold set_owner;
    destruct (Ref_eqb r self); intros H; auto; [left | ]; congruence.
Qed.

Lemma thread_step_inv_strong (own : Owners) (w w' : World) (pool pool' : Pool)
      (i : nat) (ev : Event) :
  pool_inv_strong own w pool ->
  thread_step i w pool = Some (w', pool', ev) ->
  pool_inv_strong (next_owners own i ev) w' pool'.
Proof.
  intros (Hinv & Hnn & Hidx) Hstep.
  destruct (thread_step_inv own w w' pool pool' i ev Hinv Hstep) as [_ Hinv'].
  split; [exact Hinv' |].
  destruct Hinv as [Hlocks Hpool].
  unfold thread_step in Hstep.
  destruct (nth_error pool i) as [[a | X e k] |] eqn:Hi; try discriminate.
  destruct (perform e w) as [x w1 ev1 | | ex] eqn:Hp; try discriminate.
  inversion Hstep; subst. clear Hstep.
  destruct (Hpool i _ Hi) as [Hg _].
  destruct (perform_step e w w' x ev own i Hlocks Hg Hp)
    as (_ & _ & Hme & Hothers).
  split.
  - intros j p Hj.
    destruct (nth_error_set_nth pool i j (k x) p Hj) as [[-> ->] | [Hne Hj']].
    + apply (no_nested_locks_ext _ (after_act e (owns own i))); [exact Hme |].
      apply (proj2 (Hnn i _ Hi)).
    + apply (no_nested_locks_ext _ (owns own j)); [| now apply Hnn].
      intros r. symmetry. now apply Hothers.
  - intros r j Hj. rewrite length_set_nth.
    destruct (next_owners_cases own i j ev r Hj) as [-> | Hold].
    + apply nth_error_Some. congruence.
    + now apply (Hidx r).
Qed.

Lemma run_schedule_inv_strong (sch : list nat) (own : Owners) (w : World) (pool : Pool) :
  pool_inv_strong own w pool ->
  exists own',
    pool_inv_strong own' (fst (fst (run_schedule sch w pool)))
                         (snd (fst (run_schedule sch w pool))).
Proof.
  revert own w pool; induction sch as [|i sch IH]; intros own w pool Hinv.
  - now exists own.
  - simpl. destruct (thread_step i w pool) as [[[w' pool'] ev] |] eqn:Hs.
    + destruct (IH _ _ _ (thread_step_inv_strong own w w' pool pool' i ev Hinv Hs))
        as [own' Hinv'].
      exists own'. now destruct (run_schedule sch w' pool') as [[? ?] ?].
    + now apply (IH own).
Qed.

(** An action of a thread that observes the discipline can be performed
    as soon as the thread owns a lock or no lock is owned at all. *)
Lemma perform_enabled {X : Type} (e : Act X) (w : World) (own : Owners) (i : nat) :
  (forall r, _lock (obj w r) = match own r with Some _ => true | None => false end) ->
  guard e (owns own i) ->
  match e with
  | AAcquire _ => forall r, owns own i r = false
  | _ => True
  end ->
  (exists r, own r = Some i) \/ (forall r, own r = None) ->
  exists x w' ev, perform e w = Ok x w' ev.
Proof.
  intros Hlocks Hg Hnn Hown.
  destruct e as [self sval | self | self | self sval | self | self l | c
                | line to_stdout | self | self | ]; simpl;
    try (do 3 eexists; reflexivity).
  - destruct Hown as [[r Hr] | Hnone].
    + apply owns_true in Hr. now rewrite Hnn in Hr.
    + rewrite Hlocks, Hnone. do 3 eexists; reflexivity.
  - simpl in Hg. apply owns_true in Hg. rewrite Hlocks, Hg.
    do 3 eexists; reflexivity.
  - destruct (pending w); do 3 eexists; reflexivity.
Qed.

Lemma not_finished_has_thread (pool : Pool) :
  finished pool = false ->
  exists i X (e : Act X) k, nth_error pool i = Some (Vis e k).
Proof.
  unfold finished. induction pool as [|p pool IH]; simpl; [discriminate |].
  destruct p as [a | X e k]; simpl.
  - intros H. destruct (IH H) as (i & X & e & k & Hi).
    now exists (S i), X, e, k.
  - intros _. now exists 0, X, e, k.
Qed.

(** Unless every thread has finished, some thread can move. *)
Lemma pool_progress (own : Owners) (w : World) (pool : Pool) :
  pool_inv_strong own w pool ->
  finished pool = false ->
  exists i, thread_step i w pool <> None.
Proof.
  intros ([Hlocks Hpool] & Hnn & Hidx) Hfin.
  assert (Hstep : forall i X (e : Act X) k,
             nth_error pool i = Some (Vis e k) ->
             (exists r, own r = Some i) \/ (forall r, own r = None) ->
             thread_step i w pool <> None).
  { intros i X e k Hi Hown.
    destruct (Hpool i _ Hi) as [Hg _]. destruct (Hnn i _ Hi) as [Hn _].
    destruct (perform_enabled e w own i Hlocks Hg Hn Hown) as (x & w' & ev & Hp).
    unfold thread_step. rewrite Hi, Hp. discriminate. }
  assert (Howner : forall r i, own r = Some i -> thread_step i w pool <> None).
  { intros r i Hr.
    destruct (nth_error pool i) as [p |] eqn:Hi.
    - destruct p as [a | X e k].
      + pose proof (Hpool i _ Hi) as Hret. simpl in Hret.
        apply owns_true in Hr. now rewrite Hret in Hr.
      + apply (Hstep i X e k Hi). left. now exists r.
    - apply nth_error_None in Hi. pose proof (Hidx r i Hr). lia. }
  destruct (own sys_stdout) as [i |] eqn:H1; [exists i; now apply (Howner sys_stdout) |].
  destruct (own sys_stderr) as [i |] eqn:H2; [exists i; now apply (Howner sys_stderr) |].
  destruct (not_finished_has_thread pool Hfin) as (i & X & e & k & Hi).
  exists i. apply (Hstep i X e k Hi). right. now intros [].
Qed.

(** When every thread has finished, no lock is held. *)
Lemma pool_quiescent (own : Owners) (w : World) (pool : Pool) :
  pool_inv_strong own w pool ->
  finished pool = true ->
  lock_free w.
Proof.
  intros ([Hlocks Hpool] & _ & Hidx) Hfin r.
  rewrite Hlocks. destruct (own r) as [i |] eqn:Hr; [exfalso | reflexivity].
  pose proof (Hidx r i Hr) as Hi. apply nth_error_Some in Hi.
  destruct (nth_error pool i) as [p |] eqn:Hp; [| congruence].
  unfold finished in Hfin. rewrite forallb_forall in Hfin.
  pose proof (Hfin p (nth_error_In _ _ Hp)) as Hret.
  destruct p as [a | X e k]; [| discriminate].
  pose proof (Hpool i _ Hp) as Hw. simpl in Hw.
  apply owns_true in Hr. now rewrite Hw in Hr.
Qed.

(** X7: the redirects cannot deadlock.  Let any number of threads each run
    a sequence of operations, from a state with no lock held, under any
    schedule, and stop them at any point.  If some thread has not
    finished, some thread can make its next step; and if all have
    finished, no lock is left held. *)
Theorem threads_never_deadlock (progs : list (list Op)) (w : World) (sch : list nat) :
  lock_free w ->
  let w' := fst (fst (run_schedule sch w (map ops_prog progs))) in
  let pool' := snd (fst (run_schedule sch w (map ops_prog progs))) in
  (finished pool' = false -> exists i, thread_step i w' pool' <> None) /\
  (finished pool' = true -> lock_free w').
Proof.
  intros Hf. cbv zeta.
  assert (Hinv : pool_inv_strong no_owner w (map ops_prog progs)).
  { split; [split |]; [| | split].
    - intros r. apply Hf.
    - intros i p Hi. apply nth_error_In, in_map_iff in Hi as (l & <- & _).
      apply (well_locked_ext _ (fun _ => false)); [reflexivity |].
      apply ops_well_locked.
    - intros i p Hi. apply nth_error_In, in_map_iff in Hi as (l & <- & _).
      apply (no_nested_locks_ext _ (fun _ => false)); [reflexivity |].
      apply ops_no_nested_locks.
    - intros r i Hr. discriminate. }
  destruct (run_schedule_inv_strong sch no_owner w _ Hinv) as [own' Hinv'].
  split.
  - now apply (pool_progress own').
  - now apply (pool_quiescent own').
Qed.

Lemma threads_never_deadlock_witness :
  let w := _ballistica_bootstrap (mkTextIO 1 true) (mkTextIO 2 true) in
  let progs := [[OWrite sys_stdout "a"]; [OWrite sys_stdout "b"]] in
  let sch := [0; 0; 1; 1; 1] in
  lock_free w /\
  finished (snd (fst (run_schedule sch w (map ops_prog progs)))) = false /\
  thread_step 1 (fst (fst (run_schedule sch w (map ops_prog progs))))
                (snd (fst (run_schedule sch w (map ops_prog progs)))) = None /\
  exists i,
    thread_step i (fst (fst (run_schedule sch w (map ops_prog progs))))
                  (snd (fst (run_schedule sch w (map ops_prog progs)))) <> None.
Proof.
  cbv zeta. split; [apply bootstrap_lock_free |].
  split; [reflexivity |]. split; [reflexivity |].
  exact (proj1 (threads_never_deadlock
    [[OWrite sys_stdout "a"]; [OWrite sys_stdout "b"]]
    (_ballistica_bootstrap (mkTextIO 1 true) (mkTextIO 2 true))
    [0; 0; 1; 1; 1] (bootstrap_lock_free _ _)) eq_refl).
Defined.

(** ** The rest of the bootstrap *)

(** The UTF-8 message printed through the fresh redirect. *)
Lemma utf8_print_exec (old_stdout old_stderr : TextIO) :
  exec (print [utf8_error]) (_ballistica_bootstrap old_stdout old_stderr) =
  mkRun {| stdout_obj := __init__ old_stdout print_stdout;
           stderr_obj := __init__ old_stderr print_stderr;
           pending := [deferred_ship sys_stdout] |}
        [EEcho print_stdout utf8_error; EAcquire sys_stdout;
         EAppend sys_stdout utf8_error; ERelease sys_stdout;
         EPushcall (deferred_ship sys_stdout);
         EEcho print_stdout newline; EAcquire sys_stdout;
         EAppend sys_stdout newline; ERelease sys_stdout;
         EAcquire sys_stdout;
         EGetBits sys_stdout [utf8_error; newline];
         ESetBits sys_stdout []; ERelease sys_stdout;
         ELog utf8_error false]
        (Done tt).
Proof. reflexivity. Qed.

(** The bootstrap when [_ba.env()] has the four keys. *)
Lemma bootstrap_run_ok (old_stdout old_stderr : TextIO) (path : list PyVal)
      (env : Env) (utf8_mode : Z) (u a t d : PyVal) :
  dict_get env "python_directory_user" = Some u ->
  dict_get env "python_directory_app" = Some a ->
  dict_get env "python_directory_app_site" = Some t ->
  dict_get env "debug_build" = Some d ->
  bootstrap_run old_stdout old_stderr path env utf8_mode =
  (let r := if (utf8_mode =? 1)%Z
            then mkRun (_ballistica_bootstrap old_stdout old_stderr) [] (Done tt)
            else exec (print [utf8_error])
                      (_ballistica_bootstrap old_stdout old_stderr) in
   {| b_world := world r;
      b_path := u :: path ++ [a; t];
      b_console := trace r;
      b_calls := [BSignalDefault; BSetupSigint] ++
                 (if val_truthy d then [BImportThread] else []) ++ [BNewApp] |},
   inl tt).
Proof.
  intros Hu Ha Ht Hd.
  unfold bootstrap_run, bootstrap_body, bbind, env_lookup.
  rewrite Hu, Ha, Ht, Hd.
  destruct (utf8_mode =? 1)%Z; cbn [negb].
  - destruct (val_truthy d); cbn; now rewrite <- app_assoc.
  - unfold on_console. cbn [b_world]. rewrite utf8_print_exec.
    destruct (val_truthy d); cbn; now rewrite <- app_assoc.
Qed.

Lemma find_app_split {A : Type} (f : A -> bool) (l l' : list A) :
  find f (l ++ l') =
  match find f l with
  | Some x => Some x
  | None => find f l'
  end.
Proof.
  induction l as [|x l IH]; simpl; [reflexivity |].
  now destruct (f x).
Qed.

(** X8: the search order the bootstrap leaves in [sys.path].  When
    [_ba.env()] has the four keys the bootstrap ends normally and
    [sys.path] is the user directory, then the previous entries in their
    order, then the app directory and the app site directory.  So a search
    for the first entry with some property finds the user directory if it
    has the property; otherwise it finds what it found before the
    bootstrap; and the two app directories are reached only when nothing
    else has the property. *)
Theorem bootstrap_path_priority
        (old_stdout old_stderr : TextIO) (path : list PyVal) (env : Env)
        (utf8_mode : Z) (u a t d : PyVal) (has : PyVal -> bool) :
  dict_get env "python_directory_user" = Some u ->
  dict_get env "python_directory_app" = Some a ->
  dict_get env "python_directory_app_site" = Some t ->
  dict_get env "debug_build" = Some d ->
  let res := bootstrap_run old_stdout old_stderr path env utf8_mode in
  snd res = inl tt /\
  b_path (fst res) = u :: path ++ [a; t] /\
  (has u = true -> find has (b_path (fst res)) = Some u) /\
  (has u = false -> forall x, find has path = Some x ->
     find has (b_path (fst res)) = Some x) /\
  (has u = false -> find has path = None ->
     find has (b_path (fst res)) = find has [a; t]).
Proof.
  intros Hu Ha Ht Hd. cbv zeta.
  rewrite (bootstrap_run_ok old_stdout old_stderr path env utf8_mode u a t d
             Hu Ha Ht Hd).
  cbn [fst snd b_path].
  split; [reflexivity |]. split; [reflexivity |].
  split; [| split].
  - intros H. simpl. now rewrite H.
  - intros H x Hx. simpl find at 1. rewrite H, find_app_split. now rewrite Hx.
  - intros H Hn. simpl find at 1. rewrite H, find_app_split. now rewrite Hn.
Qed.

Lemma bootstrap_path_priority_witness :
  let env := [("python_directory_user"%string, VStr "/mods");
              ("python_directory_app"%string, VStr "/app");
              ("python_directory_app_site"%string, VStr "/app/site");
              ("debug_build"%string, VBool false)] in
  let path := [VStr "/usr/lib/python"; VStr "/usr/lib/python/site"] in
  let res := bootstrap_run (mkTextIO 1 true) (mkTextIO 2 true) path env 1 in
  dict_get env "python_directory_user" = Some (VStr "/mods") /\
  dict_get env "python_directory_app" = Some (VStr "/app") /\
  dict_get env "python_directory_app_site" = Some (VStr "/app/site") /\
  dict_get env "debug_build" = Some (VBool false) /\
  snd res = inl tt /\
  b_path (fst res) =
    [VStr "/mods"; VStr "/usr/lib/python"; VStr "/usr/lib/python/site";
     VStr "/app"; VStr "/app/site"].
Proof.
  cbv zeta. do 4 (split; [reflexivity |]).
  pose proof (bootstrap_path_priority (mkTextIO 1 true) (mkTextIO 2 true)
    [VStr "/usr/lib/python"; VStr "/usr/lib/python/site"]
    [("python_directory_user"%string, VStr "/mods");
     ("python_directory_app"%string, VStr "/app");
     ("python_directory_app_site"%string, VStr "/app/site");
     ("debug_build"%string, VBool false)]
    1 (VStr "/mods") (VStr "/app") (VStr "/app/site") (VBool false)
    (fun _ => false) eq_refl eq_refl eq_refl eq_refl) as (H1 & H2 & _).
  split; [exact H1 | exact H2].
Defined.

Ltac run_bootstrap :=
  unfold bootstrap_run, bootstrap_body, bbind, env_lookup, on_console,
         path_insert_front, path_append, boot_call, bret;
  cbn [b_world b_path b_console b_calls negb fst snd];
  rewrite ?utf8_print_exec;
  cbn [b_world b_path b_console b_calls world trace outcome fst snd app].

(** X9: a key missing from [_ba.env()] stops the bootstrap with a
    [KeyError] for the first missing key, in the order the bootstrap reads
    them, and nothing is undone: the redirects are in place with no lock
    held, and [sys.path] keeps the entries added before the failure.  The
    SIGINT set-up has been done only if the three directories were read;
    the App is never created.  With no key missing the bootstrap ends
    normally; it never stops because of the console. *)
Theorem bootstrap_key_error
        (old_stdout old_stderr : TextIO) (path : list PyVal) (env : Env)
        (utf8_mode : Z) :
  let res := bootstrap_run old_stdout old_stderr path env utf8_mode in
  let missing :=
    find (fun k => match dict_get env k with None => true | Some _ => false end)
         boot_keys in
  (missing = None <-> snd res = inl tt) /\
  (forall k, missing = Some k <-> snd res = inr (KeyError k)) /\
  (forall o, snd res <> inr (ConsoleStopped o)) /\
  (lock_free (b_world (fst res)) /\
   _original (obj (b_world (fst res)) sys_stdout) = old_stdout /\
   _original (obj (b_world (fst res)) sys_stderr) = old_stderr /\
   _call (obj (b_world (fst res)) sys_stdout) = print_stdout /\
   _call (obj (b_world (fst res)) sys_stderr) = print_stderr) /\
  (missing = Some "python_directory_user"%string ->
     b_path (fst res) = path /\ b_calls (fst res) = []) /\
  (forall u, missing = Some "python_directory_app"%string ->
     dict_get env "python_directory_user" = Some u ->
     b_path (fst res) = u :: path /\ b_calls (fst res) = []) /\
  (forall u a, missing = Some "python_directory_app_site"%string ->
     dict_get env "python_directory_user" = Some u ->
     dict_get env "python_directory_app" = Some a ->
     b_path (fst res) = u :: path ++ [a] /\ b_calls (fst res) = []) /\
  (forall u a t, missing = Some "debug_build"%string ->
     dict_get env "python_directory_user" = Some u ->
     dict_get env "python_directory_app" = Some a ->
     dict_get env "python_directory_app_site" = Some t ->
     b_path (fst res) = u :: path ++ [a; t] /\
     b_calls (fst res) = [BSignalDefault; BSetupSigint]).
Proof.
  cbv zeta. unfold boot_keys. cbn [find].
  destruct (dict_get env "python_directory_user") as [u |] eqn:Hu;
    [destruct (dict_get env "python_directory_app") as [a |] eqn:Ha;
     [destruct (dict_get env "python_directory_app_site") as [t |] eqn:Ht;
      [destruct (dict_get env "debug_build") as [d |] eqn:Hd | ] | ] | ];
    destruct (utf8_mode =? 1)%Z eqn:Hm;
    run_bootstrap; rewrite ?Hu, ?Ha, ?Ht, ?Hd, ?Hm; run_bootstrap;
    try (destruct (val_truthy d)); run_bootstrap;
    rewrite <- ?app_assoc; cbn [app];
    (split; [split; intros; first [reflexivity | discriminate] |]);
    (split; [intros k; split; intros H; first [discriminate | congruence] |]);
    (split; [intros o H; discriminate |]);
    (split; [repeat split; intros []; reflexivity |]);
    repeat split; intros; try discriminate;
    repeat match goal with
           | H : Some _ = Some _ |- _ => inversion H; subst; clear H
           end; reflexivity.
Qed.

(** A bootstrap whose environment lacks the app site directory. *)
Example bootstrap_without_app_site :
  let env := [("python_directory_user"%string, VStr "/mods");
              ("python_directory_app"%string, VStr "/app");
              ("debug_build"%string, VBool true)] in
  let res := bootstrap_run (mkTextIO 1 true) (mkTextIO 2 true)
                           [VStr "/lib"] env 0 in
  snd res = inr (KeyError "python_directory_app_site") /\
  b_path (fst res) = [VStr "/mods"; VStr "/lib"; VStr "/app"] /\
  b_calls (fst res) = [] /\
  b_console (fst res) = [].
Proof. repeat split. Qed.

(** X10: the UTF-8 sanity check goes through the redirect.  When
    [_ba.env()] has the three directories, a bootstrap with
    [sys.flags.utf8_mode] other than 1 echoes the error message and the
    newline through [_ba.print_stdout], logs the message as exactly one
    record, leaves one request with the Scheduler, and leaves the buffers
    empty with no lock held; with [utf8_mode] equal to 1 the console is
    not used at all.  This holds whether or not the bootstrap then finds
    ['debug_build']. *)
Theorem utf8_probe_logged_once
        (old_stdout old_stderr : TextIO) (path : list PyVal) (env : Env)
        (utf8_mode : Z) (u a t : PyVal) :
  dict_get env "python_directory_user" = Some u ->
  dict_get env "python_directory_app" = Some a ->
  dict_get env "python_directory_app_site" = Some t ->
  let s := fst (bootstrap_run old_stdout old_stderr path env utf8_mode) in
  (utf8_mode = 1%Z ->
     b_console s = [] /\
     b_world s = _ballistica_bootstrap old_stdout old_stderr) /\
  (utf8_mode <> 1%Z ->
     echoes (b_console s) =
       [(print_stdout, utf8_error); (print_stdout, newline)] /\
     records (b_console s) = [(utf8_error, false)] /\
     pending (b_world s) = [deferred_ship sys_stdout] /\
     (forall r, _linebits (obj (b_world s) r) = []) /\
     lock_free (b_world s)).
Proof.
  intros Hu Ha Ht. cbv zeta.
  destruct (utf8_mode =? 1)%Z eqn:Hm.
  - apply Z.eqb_eq in Hm. subst utf8_mode. split; [| congruence].
    intros _. run_bootstrap. rewrite Hu, Ha, Ht. run_bootstrap.
    destruct (dict_get env "debug_build") as [d |];
      [destruct (val_truthy d) |]; run_bootstrap; now split.
  - split; [intros ->; discriminate |]. intros _.
    run_bootstrap. rewrite Hu, Ha, Ht, Hm. run_bootstrap.
    destruct (dict_get env "debug_build") as [d |];
      [destruct (val_truthy d) |]; run_bootstrap;
      repeat split; intros []; reflexivity.
Qed.

Lemma utf8_probe_logged_once_witness :
  let env := [("python_directory_user"%string, VStr "/mods");
              ("python_directory_app"%string, VStr "/app");
              ("python_directory_app_site"%string, VStr "/app/site");
              ("debug_build"%string, VInt 0)] in
  let s := fst (bootstrap_run (mkTextIO 1 true) (mkTextIO 2 true) [] env 0) in
  dict_get env "python_directory_user" = Some (VStr "/mods") /\
  dict_get env "python_directory_app" = Some (VStr "/app") /\
  dict_get env "python_directory_app_site" = Some (VStr "/app/site") /\
  records (b_console s) = [(utf8_error, false)] /\
  pending (b_world s) = [deferred_ship sys_stdout].
Proof.
  cbv zeta. do 3 (split; [reflexivity |]).
  pose proof (proj2 (utf8_probe_logged_once (mkTextIO 1 true) (mkTextIO 2 true) []
    [("python_directory_user"%string, VStr "/mods");
     ("python_directory_app"%string, VStr "/app");
     ("python_directory_app_site"%string, VStr "/app/site");
     ("debug_build"%string, VInt 0)]
    0 (VStr "/mods") (VStr "/app") (VStr "/app/site")
    eq_refl eq_refl eq_refl)) as H.
  destruct H as (_ & H2 & H3 & _); [discriminate |].
  split; [exact H2 | exact H3].
Defined.

(** ** The lock discipline, event by event *)

(** X11: what each thread may do, and when.  Let any number of threads
    each run a sequence of operations, from a state with no lock held,
    under any schedule.  Then at every event of the run: a call out of an
    instance (echo callback, [_ba.pushcall], [_ba.log], [flush] or
    [isatty] of the wrapped stream) is made by a thread that owns no lock;
    an append to a buffer, a read of it and an assignment to it are made
    by the thread that owns the lock of that instance; a lock is acquired
    only when nobody owns it and released only by its owner. *)
Theorem lock_discipline_event_by_event
        (progs : list (list Op)) (w : World) (sch : list nat)
        (pre post : list (nat * Event)) (i : nat) (e : Event) :
  lock_free w ->
  snd (run_schedule sch w (map ops_prog progs)) = pre ++ (i, e) :: post ->
  let own := owners_after no_owner pre in
  (is_external e = true -> forall r, owns own i r = false) /\
  (forall r, touches_buffer_of r e = true -> own r = Some i) /\
  (forall r, e = EAcquire r -> own r = None) /\
  (forall r, e = ERelease r -> own r = Some i).
Proof.
  intros Hf Htr. cbv zeta.
  pose proof (threads_respect_locks progs w sch Hf) as Hd.
  rewrite Htr in Hd. apply disciplined_app in Hd as [_ Hd].
  simpl in Hd. destruct Hd as [Hal _].
  split; [| split; [| split]].
  - intros He. destruct e; simpl in He; try discriminate; exact Hal.
  - intros r Ht. destruct e; simpl in Ht; try discriminate;
      apply Ref_eqb_eq in Ht; subst; exact Hal.
  - intros r ->. exact Hal.
  - intros r ->. exact Hal.
Qed.

Lemma lock_discipline_event_by_event_witness :
  let w := _ballistica_bootstrap (mkTextIO 1 true) (mkTextIO 2 true) in
  let progs := [[OWrite sys_stdout ("a" ++ newline)]; [OWrite sys_stdout "b"]] in
  let sch := [0; 0; 0; 0; 0; 0; 1; 1; 0; 0; 0] in
  let pre := [(0, EEcho print_stdout ("a" ++ newline)); (0, EAcquire sys_stdout);
              (0, EAppend sys_stdout ("a" ++ newline)); (0, ERelease sys_stdout);
              (0, EAcquire sys_stdout);
              (0, EGetBits sys_stdout [("a" ++ newline)%string])] in
  let post := [(0, ESetBits sys_stdout []); (0, ERelease sys_stdout);
               (0, ELog "a" false)] in
  lock_free w /\
  snd (run_schedule sch w (map ops_prog progs)) =
    pre ++ (1, EEcho print_stdout "b") :: post /\
  owners_after no_owner pre sys_stdout = Some 0 /\
  forall r, owns (owners_after no_owner pre) 1 r = false.
Proof.
  cbv zeta. split; [apply bootstrap_lock_free |].
  split; [reflexivity |]. split; [reflexivity |].
  exact (proj1 (lock_discipline_event_by_event
    [[OWrite sys_stdout ("a" ++ newline)]; [OWrite sys_stdout "b"]]
    (_ballistica_bootstrap (mkTextIO 1 true) (mkTextIO 2 true))
    [0; 0; 0; 0; 0; 0; 1; 1; 0; 0; 0]
    [(0, EEcho print_stdout ("a" ++ newline)); (0, EAcquire sys_stdout);
     (0, EAppend sys_stdout ("a" ++ newline)); (0, ERelease sys_stdout);
     (0, EAcquire sys_stdout);
     (0, EGetBits sys_stdout [("a" ++ newline)%string])]
    [(0, ESetBits sys_stdout []); (0, ERelease sys_stdout);
     (0, ELog "a" false)]
    1 (EEcho print_stdout "b")
    (bootstrap_lock_free _ _) eq_refl) eq_refl).
Defined.

(** ** Fragments left in a buffer *)

Lemma obj_drained_other (w : World) (self r : Ref) :
  r <> self -> obj (drained w self) r = obj w r.
Proof. unfold drained. destruct self, r; simpl; congruence. Qed.

Lemma bits_push_appended (w : World) (self r : Ref) (s : string) (c : PushedCall) :
  _linebits (obj (push (appended w self s) c) r) =
  if Ref_eqb r self then _linebits (obj w self) ++ [s] else _linebits (obj w r).
Proof. unfold push, appended. now destruct self, r. Qed.

Lemma bits_set_pending (w : World) (q : SchedulerQueue) (r : Ref) :
  _linebits (obj (set_pending w q) r) = _linebits (obj w r).
Proof. now destruct r. Qed.

Lemma lock_set_pending (w : World) (q : SchedulerQueue) (r : Ref) :
  _lock (obj (set_pending w q) r) = _lock (obj w r).
Proof. now destruct r. Qed.

Lemma bits_drained (w : World) (self r : Ref) :
  _linebits (obj (drained w self) r) =
  if Ref_eqb r self then [] else _linebits (obj w r).
Proof. unfold drained. now destruct self, r. Qed.

(** After [_shiplog] each buffer is empty or as it was. *)
Lemma shiplog_bits (self r : Ref) (w : World) :
  _lock (obj w self) = false ->
  _linebits (obj (world (exec (_shiplog self) w)) r) = [] \/
  _linebits (obj (world (exec (_shiplog self) w)) r) = _linebits (obj w r).
Proof.
  intros Hl. rewrite (shiplog_exec self w Hl). cbv zeta.
  destruct (truthy _); simpl; [| now right].
  rewrite bits_drained. destruct (Ref_eqb r self); [now left | now right].
Qed.

(** A turn of the Scheduler. *)
Lemma fire_exec (w : World) :
  exec fire w =
  match pending w with
  | [] => mkRun w [EPopPending None] (Done tt)
  | c :: q =>
      mkRun (world (exec (_shiplog (pc_self c)) (set_pending w q)))
            (EPopPending (Some c) :: trace (exec (_shiplog (pc_self c)) (set_pending w q)))
            (outcome (exec (_shiplog (pc_self c)) (set_pending w q)))
  end.
Proof. unfold fire. simpl. now destruct (pending w). Qed.

Lemma op_keeps_unterminated (o : Op) (w : World) :
  lock_free w ->
  (forall r, Forall (fun s => endswith s newline = false) (_linebits (obj w r))) ->
  forall r, Forall (fun s => endswith s newline = false)
                   (_linebits (obj (world (exec (op_prog o) w)) r)).
Proof.
  intros Hf Hb r.
  destruct o as [self sval | self | self | ]; simpl op_prog.
  - destruct (endswith sval newline) eqn:He.
    + rewrite (write_newline_exec self sval w (Hf self) He).
      cbn [world]. rewrite bits_drained.
      destruct (Ref_eqb r self); [constructor | apply Hb].
    + destruct (write_ships_spec_partial self sval w (Hf self) He) as [_ Hw].
      rewrite Hw, bits_push_appended.
      destruct (Ref_eqb r self); [| apply Hb].
      apply Forall_app. split; [apply Hb | now constructor].
  - apply Hb.
  - apply Hb.
  - rewrite fire_exec. destruct (pending w) as [|c q] eqn:Hq;
      cbn [world]; [apply Hb |].
    assert (Hl : _lock (obj (set_pending w q) (pc_self c)) = false)
      by (rewrite lock_set_pending; apply Hf).
    destruct (shiplog_bits (pc_self c) r (set_pending w q) Hl) as [-> | ->];
      [constructor |].
    rewrite bits_set_pending. apply Hb.
Qed.

(** X12: between operations a buffer holds unterminated text only.  If no
    lock is held and no fragment in the buffers ends with a newline (as
    after the bootstrap, when they are empty), then after any sequence of
    operations no fragment in the buffers ends with a newline, and so the
    text a buffer holds does not end with one: a text that ends with a
    newline never stays in a buffer. *)
Theorem buffers_hold_unterminated_text (l : list Op) (w : World) :
  lock_free w ->
  (forall r, Forall (fun s => endswith s newline = false) (_linebits (obj w r))) ->
  let w' := world (exec (ops_prog l) w) in
  forall r,
    Forall (fun s => endswith s newline = false) (_linebits (obj w' r)) /\
    endswith (join "" (_linebits (obj w' r))) newline = false.
Proof.
  cbv zeta. revert w; induction l as [|o l IH]; intros w Hf Hb r.
  - split; [apply Hb | apply join_no_newline, Hb].
  - rewrite (ops_cons_exec o l w Hf). cbn [world].
    destruct (op_exec_lock_free o w Hf) as (_ & Hf' & _).
    apply IH; [exact Hf' | now apply op_keeps_unterminated].
Qed.

Lemma buffers_hold_unterminated_text_witness :
  let w := _ballistica_bootstrap (mkTextIO 1 true) (mkTextIO 2 true) in
  let l := [OWrite sys_stdout "a"; OWrite sys_stderr ("e" ++ newline);
            OWrite sys_stdout ("b" ++ newline ++ newline); OWrite sys_stderr "f"] in
  lock_free w /\
  (forall r, Forall (fun s => endswith s newline = false) (_linebits (obj w r))) /\
  _linebits (obj (world (exec (ops_prog l) w)) sys_stderr) = ["f"%string] /\
  forall r,
    endswith (join "" (_linebits (obj (world (exec (ops_prog l) w)) r))) newline =
    false.
Proof.
  cbv zeta.
  assert (H1 : lock_free (_ballistica_bootstrap (mkTextIO 1 true) (mkTextIO 2 true)))
    by apply bootstrap_lock_free.
  assert (H2 : forall r, Forall (fun s => endswith s newline = false)
             (_linebits (obj (_ballistica_bootstrap (mkTextIO 1 true)
                                                    (mkTextIO 2 true)) r)))
    by (intros []; constructor).
  split; [exact H1 |]. split; [exact H2 |]. split; [reflexivity |].
  intros r.
  exact (proj2 (buffers_hold_unterminated_text
    [OWrite sys_stdout "a"; OWrite sys_stderr ("e" ++ newline);
     OWrite sys_stdout ("b" ++ newline ++ newline); OWrite sys_stderr "f"]
    _ H1 H2 r)).
Defined.
